(** * release-generator: the identifier resolution, manifest patch and naming
    logic of [main.go], embedded in Rocq.

    Go strings are byte sequences; they are modelled as [list ascii].  The
    file system is a finite map from paths to contents, the outside world
    (sub-processes, the GitHub API) is a record of oracles, and the functions
    of [main.go] are written in a small state monad over the world. *)

From Stdlib Require Import Ascii String ZArith Lia.
From stdpp Require Import gmap strings list.

Open Scope list_scope.

(** ** Go strings *)

Abbreviation bytes := (list ascii).

(** A Go string literal. *)
Definition str (s : string) : bytes := list_ascii_of_string s.

Definition NL : ascii := "010".
Definition CR : ascii := "013".
Definition DQ : ascii := "034".
Definition BACKSLASH : ascii := "092".

(** ** Package [strings] *)

Module strings.

(** [strings.HasPrefix(s, prefix)] *)
Fixpoint HasPrefix (s prefix : bytes) {struct prefix} : bool :=
  match prefix, s with
  | [], _ => true
  | _ :: _, [] => false
  | p :: prefix', c :: s' => Ascii.eqb c p && HasPrefix s' prefix'
  end.

(** [strings.Index(s, substr)]: the byte offset of the first occurrence of
    [substr] in [s]; [None] stands for Go's [-1]. *)
Fixpoint Index (s substr : bytes) : option nat :=
  if HasPrefix s substr then Some 0
  else match s with
       | [] => None
       | _ :: s' => S <$> Index s' substr
       end.

(** [strings.Contains(s, substr)] is [Index(s, substr) >= 0]. *)
Definition Contains (s substr : bytes) : bool :=
  match Index s substr with Some _ => true | None => false end.

(** [strings.Replace(s, old, new, 1)], the only count the program uses.
    Go returns [s] when [old == new] or when [old] does not occur, and
    otherwise rebuilds the string around the first occurrence; for an
    empty [old] the first occurrence is at offset 0. *)
Definition Replace_1 (s old new : bytes) : bytes :=
  if decide (old = new) then s
  else match Index s old with
       | None => s
       | Some j => take j s ++ new ++ drop (j + length old) s
       end.

(** [strings.Split(s, sep)] for a one-byte separator. *)
Fixpoint Split (s : bytes) (sep : ascii) : list bytes :=
  match s with
  | [] => [[]]
  | c :: s' =>
      if Ascii.eqb c sep then [] :: Split s' sep
      else match Split s' sep with
           | [] => [[c]]
           | piece :: pieces => (c :: piece) :: pieces
           end
  end.

Definition isASCII (c : ascii) : bool := nat_of_ascii c <? 128.

Definition isLower (c : ascii) : bool :=
  (nat_of_ascii "a" <=? nat_of_ascii c) && (nat_of_ascii c <=? nat_of_ascii "z").

Definition upperByte (c : ascii) : ascii :=
  if isLower c then ascii_of_nat (nat_of_ascii c - (nat_of_ascii "a" - nat_of_ascii "A"))
  else c.

(** [strings.ToUpper(s)] on its ASCII path: the string is returned as it
    is when it has no lower-case letter, and byte-mapped otherwise.  A
    string with a byte above 127 goes through the Unicode tables in Go,
    which are outside this model: [None]. *)
Definition ToUpper (s : bytes) : option bytes :=
  if forallb isASCII s then
    Some (if existsb isLower s then map upperByte s else s)
  else None.

(** The ASCII white space of [strings.Fields]. *)
Definition asciiSpace (c : ascii) : bool :=
  match nat_of_ascii c with
  | 9 | 10 | 11 | 12 | 13 | 32 => true
  | _ => false
  end.

Fixpoint fields_go (s : bytes) (cur : option bytes) : list bytes :=
  match s with
  | [] => match cur with Some f => [reverse f] | None => [] end
  | c :: s' =>
      if asciiSpace c then
        match cur with
        | Some f => reverse f :: fields_go s' None
        | None => fields_go s' None
        end
      else fields_go s' (Some (c :: default [] cur))
  end.

(** [strings.Fields(s)] on its ASCII path; [None] for a string with a
    byte above 127, where Go consults [unicode.IsSpace]. *)
Definition Fields (s : bytes) : option (list bytes) :=
  if forallb isASCII s then Some (fields_go s None) else None.

End strings.

(** ** Package [bufio]: a [Scanner] with the [ScanLines] split function *)

Module bufio.

(** [bufio.MaxScanTokenSize]: the largest buffer a [Scanner] made by
    [NewScanner] allocates. *)
Definition MaxScanTokenSize : nat := 64 * 1024.

(** [dropCR] drops one trailing carriage return. *)
Fixpoint dropCR (data : bytes) : bytes :=
  match data with
  | [] => []
  | [c] => if Ascii.eqb c CR then [] else [c]
  | c :: data' => c :: dropCR data'
  end.

(** The input cut at every newline, the newlines removed; a last piece
    without a newline counts when it is not empty.  These are the pieces
    [ScanLines] finds, before [dropCR]. *)
Fixpoint rawLines (input : bytes) : list bytes :=
  match input with
  | [] => []
  | c :: input' =>
      if Ascii.eqb c NL then [] :: rawLines input'
      else match rawLines input' with
           | [] => [[c]]
           | raw :: raws => (c :: raw) :: raws
           end
  end.

(** A token and its terminator must fit in the buffer together: [Scan]
    finds the newline of a piece of up to [MaxScanTokenSize - 1] bytes,
    and gives up with [ErrTooLong] when the buffer is full of a longer
    one (also at the end of the input, where the full buffer is seen
    before the end of file is). *)
Definition fits (raw : bytes) : bool := length raw <? MaxScanTokenSize.

(** The tokens of the successive calls of [Scan] that return [true]: the
    scanner stops for good at the first piece that does not fit. *)
Fixpoint tokens (raws : list bytes) : list bytes :=
  match raws with
  | [] => []
  | raw :: raws' => if fits raw then dropCR raw :: tokens raws' else []
  end.

(** [for scanner.Scan() { line := scanner.Text() ... }] ranges over
    [Lines input]. *)
Definition Lines (input : bytes) : list bytes := tokens (rawLines input).

End bufio.

(** ** Package [regexp], for the patterns of this program

    The pattern of [extractOldCommitHash] is the branch name followed by
    [_(\w{8})].  The model covers patterns made of literal bytes, the class
    [\w], one level of capture groups and counted repetitions [{n}] of a
    byte or a class, and, of the patterns that do not compile, those with
    a [)] that closes nothing. *)

Module regexp.

Inductive atom : Type :=
| Lit (c : ascii)     (* the byte itself *)
| WordChar.           (* \w = [0-9A-Za-z_] *)

Inductive piece : Type :=
| Rep (a : atom) (n : nat)             (* a{n}; a plain atom is a{1} *)
| Group (body : list (atom * nat)).    (* ( ... ), capturing *)

Abbreviation Regexp := (list piece).

(** The bytes [regexp.QuoteMeta] escapes: the operators of the syntax. *)
Definition special (c : ascii) : bool :=
  bool_decide (c ∈ str "\.+*?()|[]{}^$").

(** A byte that stands for itself in a pattern.  Bytes above 127 are
    parts of multi-byte runes in Go and are left out. *)
Definition literal (c : ascii) : bool := strings.isASCII c && negb (special c).

Definition isWordChar (c : ascii) : bool :=
  let n := nat_of_ascii c in
  ((48 <=? n) && (n <=? 57)) || ((65 <=? n) && (n <=? 90))
  || ((97 <=? n) && (n <=? 122)) || (n =? 95).

Definition isDigit (c : ascii) : bool :=
  let n := nat_of_ascii c in (48 <=? n) && (n <=? 57).

(** *** Parsing *)

Inductive mode : Type :=
| Plain                       (* between items *)
| Escape                      (* after a backslash *)
| Count (n : option nat).     (* inside braces; the digits read so far *)

Record pstate : Type := PState {
  p_done : list piece;                 (* finished pieces, last first *)
  p_group : option (list (atom * nat)); (* the open group, last first *)
  p_last : option atom;                (* an atom a count may follow *)
  p_mode : mode
}.

(** The atom read last is kept aside in [p_last] until it is known
    whether a count follows; [flush] files it with count 1. *)
Definition push (a : atom) (n : nat) (st : pstate) : pstate :=
  match p_group st with
  | Some g => PState (p_done st) (Some ((a, n) :: g)) None Plain
  | None => PState (Rep a n :: p_done st) None None Plain
  end.

Definition flush (st : pstate) : pstate :=
  match p_last st with
  | Some a => push a 1 st
  | None => st
  end.

Definition hold (a : atom) (st : pstate) : pstate :=
  let st' := flush st in
  PState (p_done st') (p_group st') (Some a) Plain.

(** One byte of the pattern; [None] when the pattern leaves the modelled
    syntax (or is not a pattern at all). *)
Definition step (st : pstate) (c : ascii) : option pstate :=
  match p_mode st with
  | Escape => if Ascii.eqb c "w" then Some (hold WordChar st) else None
  | Count n =>
      if isDigit c then
        match n with
        | None => Some (PState (p_done st) (p_group st) (p_last st)
                          (Count (Some (nat_of_ascii c - 48))))
        | Some 0 => None   (* leading zero *)
        | Some k =>
            let k' := 10 * k + (nat_of_ascii c - 48) in
            if k' <=? 1000
            then Some (PState (p_done st) (p_group st) (p_last st) (Count (Some k')))
            else None
        end
      else if Ascii.eqb c "}" then
        match n, p_last st with
        | Some k, Some a => Some (push a k st)
        | _, _ => None
        end
      else None
  | Plain =>
      if Ascii.eqb c BACKSLASH then
        Some (PState (p_done st) (p_group st) (p_last st) Escape)
      else if Ascii.eqb c "(" then
        let st' := flush st in
        match p_group st' with
        | Some _ => None   (* nested group *)
        | None => Some (PState (p_done st') (Some []) None Plain)
        end
      else if Ascii.eqb c ")" then
        let st' := flush st in
        match p_group st' with
        | Some g => Some (PState (Group (reverse g) :: p_done st') None None Plain)
        | None => None
        end
      else if Ascii.eqb c "{" then
        match p_last st with
        | Some _ => Some (PState (p_done st) (p_group st) (p_last st) (Count None))
        | None => None
        end
      else if literal c then Some (hold (Lit c) st)
      else None
  end.

Fixpoint parse (pattern : bytes) (st : pstate) : option pstate :=
  match pattern with
  | [] => Some st
  | c :: pattern' =>
      match step st c with
      | Some st' => parse pattern' st'
      | None => None
      end
  end.

(** [regexp.MustCompile(pattern)].  [None]: the pattern is outside the
    modelled syntax; Go then panics or compiles operators the model does
    not have. *)
Definition MustCompile (pattern : bytes) : option Regexp :=
  match parse pattern (PState [] None None Plain) with
  | Some st =>
      match p_mode st, p_group (flush st) with
      | Plain, None => Some (reverse (p_done (flush st)))
      | _, _ => None
      end
  | None => None
  end.

(** A [)] while no group is open.  The parser of Go stops there with a
    syntax error ([unexpected )]; before Go 1.10, [missing closing )]). *)
Definition unexpectedParen (st : pstate) (c : ascii) : bool :=
  match p_mode st, p_group (flush st) with
  | Plain, None => Ascii.eqb c ")"
  | _, _ => false
  end.

(** The pattern, read from [st] on, comes to such a [)]. *)
Fixpoint rejectedFrom (pattern : bytes) (st : pstate) : bool :=
  match pattern with
  | [] => false
  | c :: pattern' =>
      unexpectedParen st c
      || match step st c with
         | Some st' => rejectedFrom pattern' st'
         | None => false
         end
  end.

(** Patterns that [regexp.Compile] answers with an error, so that
    [regexp.MustCompile] panics: here, those with a [)] that closes no
    group after a part in the modelled syntax. *)
Definition rejected (pattern : bytes) : bool :=
  rejectedFrom pattern (PState [] None None Plain).

(** *** Matching *)

Definition matchAtom (a : atom) (c : ascii) : bool :=
  match a with
  | Lit c' => Ascii.eqb c c'
  | WordChar => isWordChar c
  end.

(** [a{n}] at the head of [s]: what is left of [s] after it. *)
Fixpoint matchRep (a : atom) (n : nat) (s : bytes) : option bytes :=
  match n with
  | 0 => Some s
  | S n' =>
      match s with
      | c :: s' => if matchAtom a c then matchRep a n' s' else None
      | [] => None
      end
  end.

Fixpoint matchBody (body : list (atom * nat)) (s : bytes) : option bytes :=
  match body with
  | [] => Some s
  | (a, n) :: body' =>
      match matchRep a n s with
      | Some s' => matchBody body' s'
      | None => None
      end
  end.

(** The pieces at the head of [s]: the texts of the groups, in order, and
    what is left of [s]. *)
Fixpoint matchHere (re : Regexp) (s : bytes) : option (list bytes * bytes) :=
  match re with
  | [] => Some ([], s)
  | Rep a n :: re' =>
      match matchRep a n s with
      | Some s' => matchHere re' s'
      | None => None
      end
  | Group body :: re' =>
      match matchBody body s with
      | Some s' =>
          match matchHere re' s' with
          | Some (caps, rest) =>
              Some (take (length s - length s') s :: caps, rest)
          | None => None
          end
      | None => None
      end
  end.

(** [re.FindStringSubmatch(s)]: the leftmost match, as the matched text
    followed by the texts of the groups; [None] is Go's [nil]. *)
Fixpoint FindStringSubmatch (re : Regexp) (s : bytes) : option (list bytes) :=
  match matchHere re s with
  | Some (caps, rest) => Some (take (length s - length rest) s :: caps)
  | None =>
      match s with
      | [] => None
      | _ :: s' => FindStringSubmatch re s'
      end
  end.

End regexp.

(** ** Package [fmt] *)

Module fmt.

(** The verbs [%s], [%v], [%w] applied to string and error operands (an
    error prints as its message) and the escape [%%].  [None] when the
    format leaves this fragment, or when verbs and operands do not pair
    up, where Go prints a diagnostic into the result. *)
Fixpoint format (verbs : bytes) (f : bytes) (operands : list bytes) : option bytes :=
  match f with
  | [] => match operands with [] => Some [] | _ :: _ => None end
  | c :: f' =>
      if Ascii.eqb c "%" then
        match f' with
        | [] => None
        | v :: f'' =>
            if Ascii.eqb v "%" then (λ r, c :: r) <$> format verbs f'' operands
            else if existsb (Ascii.eqb v) verbs then
              match operands with
              | a :: operands' => (λ r, a ++ r) <$> format verbs f'' operands'
              | [] => None
              end
            else None
        end
      else (λ r, c :: r) <$> format verbs f' operands
  end.

(** [fmt.Sprintf(f, operands...)] *)
Definition Sprintf (f : bytes) (operands : list bytes) : option bytes :=
  format (str "sv") f operands.

(** [fmt.Errorf(f, operands...)]: the error with that message. *)
Definition Errorf (f : bytes) (operands : list bytes) : option bytes :=
  format (str "svw") f operands.

End fmt.

(** ** Package [github] (go-github): the types the program touches *)

Module github.

Record GitObject : Type := { SHA : option bytes }.

Record Reference : Type := { Ref : option bytes; Object : option GitObject }.

(** The getters are nil-safe in Go: on a nil receiver or a nil field they
    return the zero value. *)
Definition GetObject (r : option Reference) : option GitObject := r ≫= Object.

Definition GetSHA (o : option GitObject) : bytes := default [] (o ≫= SHA).

Record NewPullRequest : Type := {
  Title : option bytes;
  Head : option bytes;
  Base : option bytes;
  Body : option bytes
}.

Record PullRequest : Type := { HTMLURL : option bytes }.

Definition GetHTMLURL (p : option PullRequest) : bytes := default [] (p ≫= HTMLURL).

(** The client made by [github.NewClient(oauth2.NewClient(ctx, ts))]: what
    tells two clients apart is the access token. *)
Record Client : Type := { AccessToken : bytes }.

End github.

(** ** The world *)

(** An error value is its message. *)
Abbreviation error := (list ascii) (only parsing).

(** What the program asks of the outside, in the order it asks. *)
Inductive Call : Type :=
| CallRun (name : bytes) (args : list bytes)
| CallGetRef (gh : github.Client) (owner repo ref : bytes)
| CallCreate (gh : github.Client) (owner repo : bytes) (pull : github.NewPullRequest)
| CallPrint (text : bytes).

Record World : Type := {
  files : gmap bytes bytes;     (* the regular files, by path *)
  readonly : gset bytes;        (* paths that cannot be opened for writing *)
  history : list Call           (* the calls made so far, oldest first *)
}.

(** The answers of the outside.  A sub-process may rewrite the files (a
    checkout does); every answer may depend on the whole world. *)
Record Outside : Type := {
  cmd_Run : World → bytes → list bytes → (bytes * option error) * gmap bytes bytes;
  Git_GetRef : World → github.Client → bytes → bytes → bytes →
               option github.Reference * option error;
  PullRequests_Create : World → github.Client → bytes → bytes → github.NewPullRequest →
               option github.PullRequest * option error
}.

Inductive panic : Type :=
| IndexOutOfRange (i len : nat)          (* index out of range [i] with length len *)
| SliceBoundsOutOfRange (hi len : nat)   (* slice bounds out of range [:hi] with length len *)
| RegexpCompile (pattern : bytes).       (* regexp: Compile(pattern): error parsing regexp *)

Inductive outcome (A : Type) : Type :=
| Value (a : A)
| Exit (status : Z) (message : bytes)   (* log.Fatal: the message, then os.Exit(1) *)
| Panicked (p : panic)
| Unmodelled.                           (* the run left the modelled part of a library *)
Arguments Value {A} a.
Arguments Exit {A} status message.
Arguments Panicked {A} p.
Arguments Unmodelled {A}.

Definition IO (A : Type) : Type := World → outcome A * World.

Global Instance IO_ret : MRet IO := λ A a w, (Value a, w).

Global Instance IO_bind : MBind IO := λ A B k m w,
  match m w with
  | (Value a, w') => k a w'
  | (Exit status message, w') => (Exit status message, w')
  | (Panicked p, w') => (Panicked p, w')
  | (Unmodelled, w') => (Unmodelled, w')
  end.

Definition abort {A} (o : outcome A) : IO A := λ w, (o, w).

(** A library result that the model has only in part. *)
Definition modelled {A} (r : option A) : IO A :=
  match r with Some a => mret a | None => abort Unmodelled end.

Definition record (c : Call) : IO unit :=
  λ w, (Value (), {| files := files w; readonly := readonly w; history := history w ++ [c] |}).

(** ** Package [os] *)

Module os.

(** The message of the [*PathError] of a failed open. *)
Definition pathError (path reason : bytes) : error :=
  str "open " ++ path ++ str ": " ++ reason.

(** [os.Open(name)]: the file, here the bytes a reader of it gets. *)
Definition Open (name : bytes) : IO (bytes * option error) := λ w,
  match files w !! name with
  | Some content => (Value (content, None), w)
  | None => (Value ([], Some (pathError name (str "no such file or directory"))), w)
  end.

(** [os.ReadFile(name)] *)
Definition ReadFile (name : bytes) : IO (bytes * option error) := Open name.

(** [os.WriteFile(name, data, 0644)]: the file is created or truncated,
    then written.  The one failure of the model is at the open, before
    the file is truncated; a write that fails later, and leaves the file
    cut short, is not modelled. *)
Definition WriteFile (name data : bytes) : IO (option error) := λ w,
  if bool_decide (name ∈ readonly w) then
    (Value (Some (pathError name (str "permission denied"))), w)
  else
    (Value None,
     {| files := <[name := data]> (files w); readonly := readonly w; history := history w |}).

End os.

(** ** [main.go] *)

Section Program.

Variable outside : Outside.

(** [log.Fatal(message)] *)
Definition log_Fatal {A} (message : bytes) : IO A := abort (Exit 1 message).

(** [log.Fatalf(f, operands...)] *)
Definition log_Fatalf {A} (f : bytes) (operands : list bytes) : IO A :=
  message ← modelled (fmt.Sprintf f operands); log_Fatal message.

Definition Errorf (f : bytes) (operands : list bytes) : IO error :=
  modelled (fmt.Errorf f operands).

(** [s[:hi]] *)
Definition slice_to (s : bytes) (hi : nat) : IO bytes :=
  if hi <=? length s then mret (take hi s)
  else abort (Panicked (SliceBoundsOutOfRange hi (length s))).

(** [exec.Command(name, args...)] with its output captured, then
    [cmd.Run()]. *)
Definition exec_Run (name : bytes) (args : list bytes) : IO (bytes * option error) := λ w,
  let '(answer, files') := cmd_Run outside w name args in
  (Value answer,
   {| files := files'; readonly := readonly w; history := history w ++ [CallRun name args] |}).

Definition runCommand (name : bytes) (args : list bytes) : IO (bytes * option error) :=
  '(out, err) ← exec_Run name args;
  match err with
  | Some e => msg ← Errorf (str "run: %w") [e]; mret ([], Some msg)
  | None => mret (out, None)
  end.

(** [gh.Git.GetRef(ctx, owner, repo, ref)] *)
Definition GetRef (gh : github.Client) (owner repo ref : bytes)
  : IO (option github.Reference * option error) := λ w,
  (Value (Git_GetRef outside w gh owner repo ref),
   {| files := files w; readonly := readonly w;
      history := history w ++ [CallGetRef gh owner repo ref] |}).

(** [gh.PullRequests.Create(ctx, owner, repo, pull)] *)
Definition Create (gh : github.Client) (owner repo : bytes) (pull : github.NewPullRequest)
  : IO (option github.PullRequest * option error) := λ w,
  (Value (PullRequests_Create outside w gh owner repo pull),
   {| files := files w; readonly := readonly w;
      history := history w ++ [CallCreate gh owner repo pull] |}).

Definition extractNewCommitHash (gh : github.Client) (master owner repository : bytes)
  : IO (bytes * option error) :=
  '(ref, err) ← GetRef gh owner repository (str "refs/heads/" ++ master);
  match err with
  | Some e => msg ← Errorf (str "error getting ref: %w") [e]; mret ([], Some msg)
  | None =>
      sha ← slice_to (github.GetSHA (github.GetObject ref)) 8;
      mret (sha, None)
  end.

(** [regexp.MustCompile(pattern)]: it panics when the pattern does not
    parse. *)
Definition regexp_MustCompile (pattern : bytes) : IO regexp.Regexp :=
  if regexp.rejected pattern then abort (Panicked (RegexpCompile pattern))
  else modelled (regexp.MustCompile pattern).

(** The loop of [extractOldCommitHash] over the lines the scanner
    yields: the first group of the first line that has the tag and a
    match. *)
Fixpoint scanForHash (re : regexp.Regexp) (yamlTag : bytes) (lines : list bytes)
  : option bytes :=
  match lines with
  | [] => None
  | line :: lines' =>
      if strings.Contains line yamlTag then
        match regexp.FindStringSubmatch re line with
        | Some match_ =>
            if 1 <? length match_ then Some (nth 1 match_ [])
            else scanForHash re yamlTag lines'
        | None => scanForHash re yamlTag lines'
        end
      else scanForHash re yamlTag lines'
  end.

Definition extractOldCommitHash (filePath master yamlTag : bytes)
  : IO (bytes * option error) :=
  '(file, err) ← os.Open filePath;
  match err with
  | Some e => msg ← Errorf (str "open file: %w") [e]; mret ([], Some msg)
  | None =>
      re ← regexp_MustCompile (master ++ str "_(\w{8})");
      match scanForHash re yamlTag (bufio.Lines file) with
      | Some hash => mret (hash, None)
      | None => msg ← Errorf (str "commit hash not found") []; mret ([], Some msg)
      end
  end.

Definition createOrCheckoutBranch (branch : bytes) : IO (option error) :=
  '(_, err) ← runCommand (str "git") [str "rev-parse"; str "--verify"; branch];
  match err with
  | None =>
      '(_, err) ← runCommand (str "git") [str "checkout"; branch];
      match err with
      | Some e => msg ← Errorf (str "run git checkout %s: %w") [branch; e]; mret (Some msg)
      | None => mret None
      end
  | Some _ =>
      '(_, err) ← runCommand (str "git") [str "checkout"; str "-b"; branch];
      match err with
      | Some e => msg ← Errorf (str "run git checkout -b %s: %w") [branch; e]; mret (Some msg)
      | None => mret None
      end
  end.

(** The two strings [updateYamlFile] hands to [strings.Replace]: the
    format is the raw literal [%s: "%s_%s"]. *)
Definition pinFormat : bytes := str "%s: " ++ [DQ] ++ str "%s_%s" ++ [DQ].

Definition updateYamlFile (filePath master yamlTag oldCommitHash newCommitHash : bytes)
  : IO (option error) :=
  '(input, err) ← os.ReadFile filePath;
  match err with
  | Some e => msg ← Errorf (str "read file: %w") [e]; mret (Some msg)
  | None =>
      old ← modelled (fmt.Sprintf pinFormat [yamlTag; master; oldCommitHash]);
      new ← modelled (fmt.Sprintf pinFormat [yamlTag; master; newCommitHash]);
      let output := strings.Replace_1 input old new in
      err ← os.WriteFile filePath output;
      match err with
      | Some e => msg ← Errorf (str "write file: %w") [e]; mret (Some msg)
      | None => mret None
      end
  end.

Definition gitCommit (filePath env repo commitHash : bytes) : IO (option error) :=
  '(_, err) ← runCommand (str "git") [str "add"; filePath];
  match err with
  | Some e => msg ← Errorf (str "run git add: %w") [e]; mret (Some msg)
  | None =>
      ENV ← modelled (strings.ToUpper env);
      commitMessage ← modelled (fmt.Sprintf (str "%s %s %s") [repo; ENV; commitHash]);
      '(_, err) ← runCommand (str "git") [str "commit"; str "-m"; commitMessage];
      match err with
      | Some e =>
          msg ← Errorf (str "run git commit -m " ++ [DQ] ++ str "%s" ++ [DQ] ++ str ": %w")
                       [commitMessage; e];
          mret (Some msg)
      | None => mret None
      end
  end.

Definition gitPush (branch : bytes) : IO (option error) :=
  '(_, err) ← runCommand (str "git") [str "push"; str "origin"; branch];
  match err with
  | Some e => msg ← Errorf (str "run push: %w") [e]; mret (Some msg)
  | None => mret None
  end.

Definition createPullRequest (gh : github.Client)
    (owner branch master title description : bytes) : IO (bytes * option error) :=
  let pr := {| github.Title := Some title;
               github.Body := Some description;
               github.Head := Some branch;
               github.Base := Some master |} in
  '(createdPR, err) ← Create gh owner (str "devops") pr;
  match err with
  | Some e => msg ← Errorf (str "create pull request: %w") [e]; mret ([], Some msg)
  | None => mret (github.GetHTMLURL createdPR, None)
  end.

(** The command line, as [flag.Parse] leaves it; [-m] defaults to
    [master], the others to the empty string. *)
Record Flags : Type := {
  flag_c : bytes;   (* 8-character commit hash *)
  flag_o : bytes;   (* GitHub owner *)
  flag_r : bytes;   (* GitHub repository *)
  flag_e : bytes;   (* Environment (dev or prod) *)
  flag_f : bytes;   (* YAML File *)
  flag_t : bytes;   (* YAML Tag *)
  flag_m : bytes    (* Name of main branch *)
}.

(** The loop of [main] over the lines of [gh auth status --show-token]:
    the third field of the first line that has [Token:] and two fields or
    more. *)
Fixpoint findToken (lines : list bytes) (ghToken : bytes) : IO bytes :=
  match lines with
  | [] => mret ghToken
  | line :: lines' =>
      if strings.Contains line (str "Token:") then
        parts ← modelled (strings.Fields line);
        if 2 <=? length parts then
          match parts !! 2 with
          | Some part => mret part
          | None => abort (Panicked (IndexOutOfRange 2 (length parts)))
          end
        else findToken lines' ghToken
      else findToken lines' ghToken
  end.

(** Lines 66-72 of [main]: the new identifier is the [-c] flag, or the
    tip of the main branch when the flag is empty. *)
Definition resolveNewCommitHash (gh : github.Client) (newCommitHashFlag master owner repo : bytes)
  : IO bytes :=
  let newCommitHash := newCommitHashFlag in
  if bool_decide (newCommitHash = []) then
    '(newCommitHash, err) ← extractNewCommitHash gh master owner repo;
    match err with
    | Some e => log_Fatalf (str "Failed to extract newest master: %v") [e]
    | None => mret newCommitHash
    end
  else mret newCommitHash.

(** Line 79: the branch of the change. *)
Definition branchName (repo env newCommitHash : bytes) : option bytes :=
  fmt.Sprintf (str "%s_%s_%s") [repo; env; newCommitHash].

(** Line 99: the title of the pull request. *)
Definition title (repo env newCommitHash : bytes) : option bytes :=
  ENV ← strings.ToUpper env;
  fmt.Sprintf (str "%s %s %s") [repo; ENV; newCommitHash].

(** Line 100: the body of the pull request. *)
Definition description (owner repo oldCommitHash newCommitHash : bytes) : option bytes :=
  fmt.Sprintf (str "https://github.com/%s/%s/compare/%s...%s")
              [owner; repo; oldCommitHash; newCommitHash].

Definition successFormat : bytes :=
  str "Pull request created successfully" ++ [NL] ++ str "URL: %s" ++ [NL]
  ++ str "Title: %s" ++ [NL] ++ str "Description:" ++ [NL] ++ str "%s" ++ [NL].

Definition main (fl : Flags) : IO unit :=
  let newCommitHashFlag := flag_c fl in
  let owner := flag_o fl in
  let repo := flag_r fl in
  let env := flag_e fl in
  let yamlFile := flag_f fl in
  let yamlTag := flag_t fl in
  let master := flag_m fl in
  if negb (bool_decide (env = str "dev")) && negb (bool_decide (env = str "prod")) then
    log_Fatal (str "Environment (-e) must be 'dev' or 'prod'")
  else if bool_decide (owner = []) then
    log_Fatal (str "Organization (-o) is required")
  else if bool_decide (repo = []) then
    log_Fatal (str "Repository (-r) is required")
  else
    '(ghToken, err) ← runCommand (str "gh") [str "auth"; str "status"; str "--show-token"];
    match err with
    | Some e => log_Fatalf (str "Failed to get token from gh cli client: %v") [e]
    | None =>
        ghToken ← findToken (strings.Split ghToken NL) ghToken;
        let gh := {| github.AccessToken := ghToken |} in
        newCommitHash ← resolveNewCommitHash gh newCommitHashFlag master owner repo;
        '(oldCommitHash, err) ← extractOldCommitHash yamlFile master yamlTag;
        match err with
        | Some e =>
            log_Fatalf (str "Could not extract the release tag from %s: %v") [yamlFile; e]
        | None =>
            branchName ← modelled (branchName repo env newCommitHash);
            err ← createOrCheckoutBranch branchName;
            match err with
            | Some e => log_Fatalf (str "Failed to create or checkout branch: %v") [e]
            | None =>
                err ← updateYamlFile yamlFile master yamlTag oldCommitHash newCommitHash;
                match err with
                | Some e => log_Fatalf (str "Failed to update YAML file: %v") [e]
                | None =>
                    err ← gitCommit yamlFile env repo newCommitHash;
                    match err with
                    | Some e => log_Fatalf (str "Failed to commit changes: %v") [e]
                    | None =>
                        err ← gitPush branchName;
                        match err with
                        | Some e => log_Fatalf (str "Failed to push branch: %v") [e]
                        | None =>
                            title ← modelled (title repo env newCommitHash);
                            description ←
                              modelled (description owner repo oldCommitHash newCommitHash);
                            '(pullRequestURL, err) ←
                              createPullRequest gh owner branchName master title description;
                            match err with
                            | Some e => log_Fatalf (str "Failed to create pull request: %v") [e]
                            | None =>
                                text ← modelled (fmt.Sprintf successFormat
                                                   [pullRequestURL; title; description]);
                                record (CallPrint text)
                            end
                        end
                    end
                end
            end
        end
    end.

End Program.

(** * Properties *)

(** ** Occurrences of a substring *)

(** [sub] occurs in [s] at byte offset [i]. *)
Definition occurs_at (sub s : bytes) (i : nat) : Prop :=
  ∃ pre post, s = pre ++ sub ++ post ∧ length pre = i.

Lemma eqb_ascii_true (c d : ascii) : Ascii.eqb c d = true ↔ c = d.
Proof. apply Ascii.eqb_eq. Qed.

Lemma HasPrefix_prefix (s p : bytes) : strings.HasPrefix s p = true ↔ p `prefix_of` s.
Proof.
  revert s. induction p as [|c p IH]; intros s; simpl.
  - split; [intros _; apply prefix_nil | done].
  - destruct s as [|d s].
    + split; [done | intros [k Hk]; discriminate].
    + rewrite andb_true_iff, eqb_ascii_true, IH. split.
      * intros [-> Hp]. by apply prefix_cons.
      * intros [k Hk]. simplify_eq/=. split; [done | by exists k].
Qed.

Lemma occurs_at_0 (sub s : bytes) : occurs_at sub s 0 ↔ sub `prefix_of` s.
Proof.
  split.
  - intros (pre & post & -> & Hlen). apply nil_length_inv in Hlen as ->. by exists post.
  - intros [post ->]. by exists [], post.
Qed.

Lemma occurs_at_S (sub : bytes) (c : ascii) (s : bytes) (i : nat) :
  occurs_at sub (c :: s) (S i) ↔ occurs_at sub s i.
Proof.
  split.
  - intros (pre & post & Heq & Hlen). destruct pre as [|d pre]; [done|].
    simplify_eq/=. by exists pre, post.
  - intros (pre & post & -> & <-). by exists (c :: pre), post.
Qed.

Lemma occurs_at_bound (sub s : bytes) (i : nat) :
  occurs_at sub s i → i + length sub ≤ length s.
Proof. intros (pre & post & -> & <-). rewrite !length_app. lia. Qed.

Lemma Index_Some (s sub : bytes) (i : nat) :
  strings.Index s sub = Some i →
  occurs_at sub s i ∧ ∀ j, occurs_at sub s j → i ≤ j.
Proof.
  revert i. induction s as [|c s IH]; intros i; simpl.
  - destruct (strings.HasPrefix [] sub) eqn:Hp; [|done].
    intros [= <-]. split; [|lia]. by apply occurs_at_0, HasPrefix_prefix.
  - destruct (strings.HasPrefix (c :: s) sub) eqn:Hp.
    + intros [= <-]. split; [|lia]. by apply occurs_at_0, HasPrefix_prefix.
    + destruct (strings.Index s sub) as [k|] eqn:Hk; [|done].
      intros [= <-]. destruct (IH k eq_refl) as [Hocc Hmin]. split.
      * by apply occurs_at_S.
      * intros [|j] Hj.
        -- apply occurs_at_0, HasPrefix_prefix in Hj. congruence.
        -- apply occurs_at_S, Hmin in Hj. lia.
Qed.

Lemma Index_None (s sub : bytes) :
  strings.Index s sub = None → ∀ j, ¬ occurs_at sub s j.
Proof.
  induction s as [|c s IH]; simpl.
  - destruct (strings.HasPrefix [] sub) eqn:Hp; [done|].
    intros _ j Hj. pose proof (occurs_at_bound _ _ _ Hj) as Hb. simpl in Hb.
    assert (j = 0) as -> by lia.
    apply occurs_at_0, HasPrefix_prefix in Hj. congruence.
  - destruct (strings.HasPrefix (c :: s) sub) eqn:Hp; [done|].
    destruct (strings.Index s sub) as [k|] eqn:Hk; [done|].
    intros _ [|j] Hj.
    + apply occurs_at_0, HasPrefix_prefix in Hj. congruence.
    + apply occurs_at_S in Hj. by apply (IH eq_refl j).
Qed.

Lemma Index_occurs (s sub : bytes) (j : nat) :
  occurs_at sub s j → ∃ i, strings.Index s sub = Some i ∧ i ≤ j.
Proof.
  intros Hj. destruct (strings.Index s sub) as [i|] eqn:Hi.
  - exists i. split; [done|]. by apply (Index_Some _ _ _ Hi).
  - by destruct (Index_None _ _ Hi j).
Qed.

Lemma Contains_true (s sub : bytes) :
  strings.Contains s sub = true ↔ ∃ pre post, s = pre ++ sub ++ post.
Proof.
  unfold strings.Contains. split.
  - destruct (strings.Index s sub) as [i|] eqn:Hi; [|done].
    intros _. destruct (Index_Some _ _ _ Hi) as [(pre & post & -> & _) _]. eauto.
  - intros (pre & post & ->).
    destruct (Index_occurs (pre ++ sub ++ post) sub (length pre)) as (i & -> & _); [|done].
    by exists pre, post.
Qed.

Lemma Contains_false (s sub : bytes) :
  strings.Contains s sub = false ↔ ∀ pre post, s ≠ pre ++ sub ++ post.
Proof.
  rewrite <- not_true_iff_false, Contains_true. split.
  - intros Hno pre post ->. apply Hno. eauto.
  - intros Hno (pre & post & ->). by apply (Hno pre post).
Qed.

(** What [strings.Replace] with count 1 does, in terms of occurrences. *)
Lemma Replace_1_spec (s old new : bytes) :
  ((∀ pre post, s ≠ pre ++ old ++ post) ∧ strings.Replace_1 s old new = s)
  ∨ (∃ pre post,
        s = pre ++ old ++ post
        ∧ strings.Replace_1 s old new = pre ++ new ++ post
        ∧ ∀ pre' post', s = pre' ++ old ++ post' → length pre ≤ length pre').
Proof.
  unfold strings.Replace_1.
  destruct (strings.Index s old) as [i|] eqn:Hi.
  - right. destruct (Index_Some _ _ _ Hi) as [(pre & post & -> & <-) Hmin].
    exists pre, post. split; [done|]. split.
    + case_decide as Heq; [by subst|].
      rewrite take_app_length.
      rewrite (app_assoc pre old post), <- length_app, drop_app_length. done.
    + intros pre' post' Heq. apply Hmin. by exists pre', post'.
  - left. split.
    + intros pre post ->. apply (Index_None _ _ Hi (length pre)). by exists pre, post.
    + by case_decide.
Qed.

(** ** The manifest patch *)

(** The text [<tag>: "<branch>_<id>"] that [updateYamlFile] looks for and
    writes. *)
Definition pin (yamlTag master commitHash : bytes) : bytes :=
  yamlTag ++ str ": " ++ [DQ] ++ master ++ str "_" ++ commitHash ++ [DQ].

Lemma Sprintf_pinFormat (yamlTag master commitHash : bytes) :
  fmt.Sprintf pinFormat [yamlTag; master; commitHash] = Some (pin yamlTag master commitHash).
Proof. vm_compute. reflexivity. Qed.

Lemma pin_inj (yamlTag master h1 h2 : bytes) :
  pin yamlTag master h1 = pin yamlTag master h2 → h1 = h2.
Proof.
  unfold pin. intros H. do 5 apply app_inv_head in H.
  by apply app_inv_tail in H.
Qed.

(** The file after a successful [updateYamlFile]. *)
Definition patched (input yamlTag master oldCommitHash newCommitHash : bytes) : bytes :=
  strings.Replace_1 input (pin yamlTag master oldCommitHash) (pin yamlTag master newCommitHash).

Lemma updateYamlFile_run (w : World)
    (filePath master yamlTag oldCommitHash newCommitHash input : bytes) :
  files w !! filePath = Some input →
  filePath ∉ readonly w →
  updateYamlFile filePath master yamlTag oldCommitHash newCommitHash w
  = (Value None,
     {| files := <[filePath := patched input yamlTag master oldCommitHash newCommitHash]> (files w);
        readonly := readonly w;
        history := history w |}).
Proof.
  intros Hin Hrw.
  unfold updateYamlFile, os.ReadFile, os.Open, os.WriteFile, mbind, IO_bind.
  rewrite Hin, !Sprintf_pinFormat. simpl.
  rewrite bool_decide_eq_false_2 by done. reflexivity.
Qed.

(** A manifest that cannot be read or written: the error is returned
    wrapped, and no file changes. *)
Lemma updateYamlFile_read_error (w : World)
    (filePath master yamlTag oldCommitHash newCommitHash : bytes) :
  files w !! filePath = None →
  updateYamlFile filePath master yamlTag oldCommitHash newCommitHash w
  = (Value (Some (str "read file: "
                  ++ os.pathError filePath (str "no such file or directory"))), w).
Proof.
  intros Hin. unfold updateYamlFile, os.ReadFile, os.Open, mbind, IO_bind. rewrite Hin.
  unfold Errorf, fmt.Errorf. simpl. by rewrite app_nil_r.
Qed.

Lemma updateYamlFile_write_error (w : World)
    (filePath master yamlTag oldCommitHash newCommitHash input : bytes) :
  files w !! filePath = Some input →
  filePath ∈ readonly w →
  updateYamlFile filePath master yamlTag oldCommitHash newCommitHash w
  = (Value (Some (str "write file: " ++ os.pathError filePath (str "permission denied"))), w).
Proof.
  intros Hin Hro. unfold updateYamlFile, os.ReadFile, os.Open, os.WriteFile, mbind, IO_bind.
  rewrite Hin, !Sprintf_pinFormat. simpl.
  rewrite bool_decide_eq_true_2 by done.
  unfold Errorf, fmt.Errorf. simpl. by rewrite app_nil_r.
Qed.

(** C2. [updateYamlFile] writes the file back with the first occurrence
    of [<tagName>: "<branch>_<oldId>"] replaced by
    [<tagName>: "<branch>_<newId>"]: what precedes and what follows that
    occurrence is kept byte for byte, no occurrence starts earlier, and a
    file without the substring is written back as it was. *)
Theorem updateYamlFile_replaces_first_occurrence (w : World)
    (filePath master yamlTag oldCommitHash newCommitHash input : bytes) :
  files w !! filePath = Some input →
  filePath ∉ readonly w →
  ∃ output,
    updateYamlFile filePath master yamlTag oldCommitHash newCommitHash w
    = (Value None,
       {| files := <[filePath := output]> (files w);
          readonly := readonly w;
          history := history w |})
    ∧ (((∀ pre post, input ≠ pre ++ pin yamlTag master oldCommitHash ++ post)
        ∧ output = input)
       ∨ (∃ pre post,
             input = pre ++ pin yamlTag master oldCommitHash ++ post
             ∧ output = pre ++ pin yamlTag master newCommitHash ++ post
             ∧ ∀ pre' post',
                 input = pre' ++ pin yamlTag master oldCommitHash ++ post' →
                 length pre ≤ length pre')).
Proof.
  intros Hin Hrw.
  exists (patched input yamlTag master oldCommitHash newCommitHash).
  split; [by apply updateYamlFile_run|].
  apply Replace_1_spec.
Qed.

(** ** Occurrences under concatenation *)

Lemma occurs_at_take_drop (sub s : bytes) (i : nat) :
  occurs_at sub s i ↔ i ≤ length s ∧ take (length sub) (drop i s) = sub.
Proof.
  split.
  - intros (pre & post & -> & <-). split; [rewrite length_app; lia|].
    by rewrite drop_app_length, take_app_length.
  - intros [Hle Heq]. exists (take i s), (drop (length sub) (drop i s)). split.
    + rewrite <- Heq at 1. by rewrite !take_drop.
    + rewrite length_take. lia.
Qed.

Lemma occurs_at_lookup (sub s : bytes) (i k : nat) :
  occurs_at sub s i → k < length sub → s !! (i + k) = sub !! k.
Proof.
  intros (pre & post & -> & <-) Hk.
  rewrite lookup_app_r by lia.
  replace (length pre + k - length pre) with k by lia.
  by rewrite lookup_app_l.
Qed.

Lemma occurs_at_app_l (sub s t : bytes) (i : nat) :
  occurs_at sub (s ++ t) i → i + length sub ≤ length s → occurs_at sub s i.
Proof.
  rewrite !occurs_at_take_drop. intros [_ Heq] Hle. split; [lia|].
  rewrite drop_app_le in Heq by lia.
  rewrite take_app_le in Heq; [done|]. rewrite length_drop. lia.
Qed.

Lemma occurs_at_app_r (sub s t : bytes) (i : nat) :
  occurs_at sub (s ++ t) i → length s ≤ i → occurs_at sub t (i - length s).
Proof.
  rewrite !occurs_at_take_drop, length_app. intros [Hb Heq] Hle. split; [lia|].
  by rewrite drop_app_ge in Heq.
Qed.

Lemma occurs_at_app_intro_l (sub s t : bytes) (i : nat) :
  occurs_at sub s i → occurs_at sub (s ++ t) i.
Proof.
  intros (x & y & -> & <-). exists x, (y ++ t). by rewrite <- !app_assoc.
Qed.

Lemma occurs_at_app_intro_r (sub s t : bytes) (i : nat) :
  occurs_at sub t i → occurs_at sub (s ++ t) (length s + i).
Proof.
  intros (x & y & -> & <-). exists (s ++ x), y.
  rewrite length_app. split; [|done]. by rewrite <- !app_assoc.
Qed.

(** ** Patching twice *)

Definition pin_a : bytes := pin (str "tag") (str "master") (str "aaaaaaaa").
Definition pin_b : bytes := pin (str "tag") (str "master") (str "bbbbbbbb").

(** [pin_a] and [pin_b] begin with [ta], and [t] is met again only at
    offset 9, where [e] follows: neither text can overlap the other one in
    part. *)
Lemma pin_no_overlap (p q : bytes) (d : nat) :
  p ∈ [pin_a; pin_b] → q ∈ [pin_a; pin_b] →
  0 < d < 22 →
  p !! d = q !! 0 → S d < 22 → p !! S d ≠ q !! 1.
Proof.
  intros Hp Hq Hd H0 _.
  assert (p !! d = Some "t"%char) as Hpd.
  { rewrite H0. set_unfold. by destruct Hq as [-> | [-> | []]]. }
  assert (d = 9) as ->.
  { set_unfold. destruct Hp as [-> | [-> | []]];
      do 22 (destruct d as [|d]; [by (lia || discriminate Hpd)|]); lia. }
  set_unfold. by destruct Hp as [-> | [-> | []]], Hq as [-> | [-> | []]].
Qed.

Lemma pin_b_hides_pin_a (pre post : bytes) (j : nat) :
  occurs_at pin_a (pre ++ pin_b ++ post) j →
  j + 22 ≤ length pre ∨ length pre + 22 ≤ j.
Proof.
  intros Hj.
  assert (occurs_at pin_b (pre ++ pin_b ++ post) (length pre)) as Hi by (by exists pre, post).
  destruct (decide (j + 22 ≤ length pre)) as [|Hl]; [by left|].
  destruct (decide (length pre + 22 ≤ j)) as [|Hr]; [by right|]. exfalso.
  destruct (decide (j = length pre)) as [->|Hne].
  - pose proof (occurs_at_lookup _ _ _ 13 Hj ltac:(simpl; lia)) as Ha.
    pose proof (occurs_at_lookup _ _ _ 13 Hi ltac:(simpl; lia)) as Hb.
    rewrite Ha in Hb. discriminate Hb.
  - destruct (decide (j < length pre)).
    + (* [pin_a] starts [d] bytes before [pin_b] *)
      set (d := length pre - j).
      pose proof (occurs_at_lookup _ _ _ d Hj ltac:(simpl; lia)) as H0.
      pose proof (occurs_at_lookup _ _ _ 0 Hi ltac:(simpl; lia)) as H0'.
      replace (j + d) with (length pre + 0) in H0 by lia. rewrite H0' in H0.
      destruct (decide (S d < 22)) as [Hd|Hd].
      * pose proof (occurs_at_lookup _ _ _ (S d) Hj ltac:(simpl; lia)) as H1.
        pose proof (occurs_at_lookup _ _ _ 1 Hi ltac:(simpl; lia)) as H1'.
        replace (j + S d) with (length pre + 1) in H1 by lia. rewrite H1' in H1.
        apply (pin_no_overlap pin_a pin_b d); [set_solver | set_solver | lia | done | done | done].
      * assert (d = 21) as Hd21 by lia. rewrite Hd21 in H0. discriminate H0.
    + (* [pin_a] starts [d] bytes after [pin_b] *)
      set (d := j - length pre).
      pose proof (occurs_at_lookup _ _ _ d Hi ltac:(simpl; lia)) as H0.
      pose proof (occurs_at_lookup _ _ _ 0 Hj ltac:(simpl; lia)) as H0'.
      replace (length pre + d) with (j + 0) in H0 by lia. rewrite H0' in H0.
      destruct (decide (S d < 22)) as [Hd|Hd].
      * pose proof (occurs_at_lookup _ _ _ (S d) Hi ltac:(simpl; lia)) as H1.
        pose proof (occurs_at_lookup _ _ _ 1 Hj ltac:(simpl; lia)) as H1'.
        replace (length pre + S d) with (j + 1) in H1 by lia. rewrite H1' in H1.
        apply (pin_no_overlap pin_b pin_a d); [set_solver | set_solver | lia | done | done | done].
      * assert (d = 21) as Hd21 by lia. rewrite Hd21 in H0. discriminate H0.
Qed.

(** The file has the text exactly once. *)
Definition occurs_once (sub s : bytes) : Prop :=
  ∃ i, occurs_at sub s i ∧ ∀ j, occurs_at sub s j → j = i.

Lemma patched_once (input : bytes) :
  occurs_once pin_a input →
  ∃ pre post,
    input = pre ++ pin_a ++ post
    ∧ patched input (str "tag") (str "master") (str "aaaaaaaa") (str "bbbbbbbb")
      = pre ++ pin_b ++ post
    ∧ ∀ j, ¬ occurs_at pin_a (pre ++ pin_b ++ post) j.
Proof.
  intros (i & Hi & Honce). unfold patched. fold pin_a pin_b.
  destruct (Replace_1_spec input pin_a pin_b) as [[Hno _] | (pre & post & Hin & Hout & _)].
  { destruct Hi as (pre & post & -> & _). by destruct (Hno pre post). }
  exists pre, post. split; [done|]. split; [done|].
  assert (length pre = i) as Hpre by (apply Honce; by exists pre, post).
  intros j Hj. destruct (pin_b_hides_pin_a _ _ _ Hj) as [Hl | Hr].
  - (* an occurrence inside [pre] is a second one of the input *)
    apply occurs_at_app_l in Hj; [|simpl; lia].
    assert (occurs_at pin_a input j) as Hj'.
    { rewrite Hin. by apply occurs_at_app_intro_l. }
    apply Honce in Hj'. lia.
  - (* an occurrence inside [post] is a second one of the input *)
    rewrite app_assoc in Hj. apply occurs_at_app_r in Hj; [|rewrite length_app; simpl; lia].
    assert (occurs_at pin_a input (length (pre ++ pin_a) + (j - length (pre ++ pin_b)))) as Hj'.
    { rewrite Hin, app_assoc. by apply occurs_at_app_intro_r. }
    apply Honce in Hj'. rewrite length_app in Hj'. simpl in Hj'. lia.
Qed.

(** C3, as it holds.  On a manifest with exactly one occurrence of
    [tag: "master_aaaaaaaa"], the patch for the transition from [aaaaaaaa]
    to [bbbbbbbb] leaves a file that contains [tag: "master_bbbbbbbb"], and
    the same patch applied once more succeeds and changes nothing. *)
Theorem updateYamlFile_twice (w : World) (filePath input : bytes) :
  files w !! filePath = Some input →
  filePath ∉ readonly w →
  occurs_once pin_a input →
  ∃ w1 once,
    updateYamlFile filePath (str "master") (str "tag") (str "aaaaaaaa") (str "bbbbbbbb") w
    = (Value None, w1)
    ∧ files w1 !! filePath = Some once
    ∧ strings.Contains once pin_b = true
    ∧ updateYamlFile filePath (str "master") (str "tag") (str "aaaaaaaa") (str "bbbbbbbb") w1
      = (Value None, w1).
Proof.
  intros Hin Hrw Honce.
  destruct (patched_once input Honce) as (pre & post & _ & Hout & Hgone).
  exists {| files := <[filePath := pre ++ pin_b ++ post]> (files w);
            readonly := readonly w; history := history w |}, (pre ++ pin_b ++ post).
  split; [rewrite <- Hout; by apply updateYamlFile_run|].
  cbn [files]. split; [apply lookup_insert_eq|].
  split; [apply Contains_true; eauto|].
  rewrite (updateYamlFile_run _ _ _ _ _ _ (pre ++ pin_b ++ post));
    [|apply lookup_insert_eq|done].
  cbn [files readonly history]. rewrite insert_insert_eq. do 3 f_equal.
  unfold patched. fold pin_a pin_b.
  destruct (Replace_1_spec (pre ++ pin_b ++ post) pin_a pin_b)
    as [[_ ->] | (x & y & Heq & _)]; [done|].
  destruct (Hgone (length x)). by exists x, y.
Qed.

(** The manifest of the counterexample to C3: the pin twice. *)
Definition twoPins : bytes := pin_a ++ [NL] ++ pin_a ++ [NL].

(** C3 fails as stated: on a manifest that contains
    [tag: "master_aaaaaaaa"] twice, the second application of the patch
    rewrites the second occurrence. *)
Lemma updateYamlFile_twice_not_a_noop :
  let w := {| files := {[ str "values.yaml" := twoPins ]}; readonly := ∅; history := [] |} in
  ∃ w1 w2 once twice,
    strings.Contains twoPins pin_a = true
    ∧ updateYamlFile (str "values.yaml") (str "master") (str "tag")
        (str "aaaaaaaa") (str "bbbbbbbb") w = (Value None, w1)
    ∧ files w1 !! str "values.yaml" = Some once
    ∧ strings.Contains once pin_b = true
    ∧ updateYamlFile (str "values.yaml") (str "master") (str "tag")
        (str "aaaaaaaa") (str "bbbbbbbb") w1 = (Value None, w2)
    ∧ files w2 !! str "values.yaml" = Some twice
    ∧ twice ≠ once.
Proof.
  intros w.
  eexists _, _, (pin_b ++ [NL] ++ pin_a ++ [NL]), (pin_b ++ [NL] ++ pin_b ++ [NL]).
  split; [by vm_compute|].
  split; [apply updateYamlFile_run; [apply lookup_singleton_eq | set_solver]|].
  split; [simpl; rewrite lookup_insert_eq; by vm_compute|].
  split; [by vm_compute|].
  split; [apply (updateYamlFile_run _ _ _ _ _ _ (pin_b ++ [NL] ++ pin_a ++ [NL]));
          [simpl; rewrite lookup_insert_eq; by vm_compute | set_solver]|].
  split; [simpl; rewrite lookup_insert_eq; by vm_compute|].
  by vm_compute.
Qed.

(** ** The pattern of [extractOldCommitHash] *)

(** A branch name that is plain text in a pattern: ASCII bytes, none of
    them an operator of the regexp syntax. *)
Definition plain (master : bytes) : Prop := forallb regexp.literal master = true.

Definition lits (m : bytes) : regexp.Regexp := map (λ c, regexp.Rep (regexp.Lit c) 1) m.

(** The compiled form of [<master>_(\w{8})]. *)
Definition hashRegexp (master : bytes) : regexp.Regexp :=
  lits master ++ [regexp.Rep (regexp.Lit "_") 1; regexp.Group [(regexp.WordChar, 8)]].

Lemma flush_group_None (st : regexp.pstate) :
  regexp.p_group st = None → regexp.p_group (regexp.flush st) = None.
Proof.
  intros Hg. unfold regexp.flush, regexp.push.
  destruct (regexp.p_last st); [|done]. by rewrite Hg.
Qed.

Lemma flush_mode_Plain (st : regexp.pstate) :
  regexp.p_mode st = regexp.Plain → regexp.p_mode (regexp.flush st) = regexp.Plain.
Proof.
  intros Hm. unfold regexp.flush, regexp.push.
  destruct (regexp.p_last st); [|done]. by destruct (regexp.p_group st).
Qed.

Lemma step_literal (st : regexp.pstate) (c : ascii) :
  regexp.literal c = true → regexp.p_mode st = regexp.Plain →
  regexp.step st c = Some (regexp.hold (regexp.Lit c) st).
Proof.
  intros Hc Hm. unfold regexp.step. rewrite Hm, Hc.
  assert (∀ d, regexp.literal d = false → Ascii.eqb c d = false) as Hne.
  { intros d Hd. destruct (Ascii.eqb c d) eqn:E; [|done].
    apply eqb_ascii_true in E as ->. congruence. }
  rewrite !Hne by done. done.
Qed.

Lemma done_hold (a : regexp.atom) (st : regexp.pstate) :
  regexp.p_group st = None →
  regexp.p_done (regexp.flush (regexp.hold a st))
  = regexp.Rep a 1 :: regexp.p_done (regexp.flush st).
Proof.
  intros Hg. unfold regexp.hold. unfold regexp.flush at 1. simpl.
  unfold regexp.push. simpl. by rewrite flush_group_None.
Qed.

Lemma parse_literals (m rest : bytes) (st : regexp.pstate) :
  plain m → regexp.p_mode st = regexp.Plain → regexp.p_group st = None →
  ∃ st',
    regexp.parse (m ++ rest) st = regexp.parse rest st'
    ∧ regexp.p_mode st' = regexp.Plain
    ∧ regexp.p_group st' = None
    ∧ regexp.p_done (regexp.flush st') = reverse (lits m) ++ regexp.p_done (regexp.flush st).
Proof.
  unfold plain. revert st. induction m as [|c m IH]; intros st Hm Hmode Hg.
  - by exists st.
  - simpl in Hm. apply andb_true_iff in Hm as [Hc Hm].
    destruct (IH (regexp.hold (regexp.Lit c) st) Hm) as (st' & Hp & Hmode' & Hg' & Hd).
    { done. }
    { simpl. by apply flush_group_None. }
    exists st'. simpl. rewrite step_literal by done.
    split; [done|]. split; [done|]. split; [done|].
    rewrite Hd, done_hold by done. rewrite reverse_cons, <- app_assoc. done.
Qed.

Lemma parse_group_tail (D : list regexp.piece) :
  regexp.parse (str "\w{8})")
    (regexp.PState (regexp.Rep (regexp.Lit "_") 1 :: D) (Some []) None regexp.Plain)
  = Some (regexp.PState
            (regexp.Group [(regexp.WordChar, 8)] :: regexp.Rep (regexp.Lit "_") 1 :: D)
            None None regexp.Plain).
Proof. reflexivity. Qed.

(** For a plain branch name, [regexp.MustCompile(master + `_(\w{8})`)]
    is the branch name byte by byte, an underscore, and one group of eight
    word characters. *)
Lemma MustCompile_hashRegexp (master : bytes) :
  plain master →
  regexp.MustCompile (master ++ str "_(\w{8})") = Some (hashRegexp master).
Proof.
  intros Hm. unfold regexp.MustCompile.
  destruct (parse_literals master (str "_(\w{8})") (regexp.PState [] None None regexp.Plain) Hm)
    as (st & -> & Hmode & Hg & Hd); [done..|].
  simpl in Hd. rewrite app_nil_r in Hd.
  change (str "_(\w{8})") with ("_"%char :: "("%char :: str "\w{8})").
  cbn [regexp.parse]. rewrite step_literal by done.
  assert (regexp.step (regexp.hold (regexp.Lit "_") st) "("
          = Some (regexp.PState (regexp.Rep (regexp.Lit "_") 1 :: reverse (lits master))
                    (Some []) None regexp.Plain)) as ->.
  { unfold regexp.step. cbn [regexp.hold regexp.p_mode]. simpl Ascii.eqb. cbv iota.
    rewrite flush_group_None by (simpl; by apply flush_group_None).
    by rewrite done_hold, Hd. }
  rewrite parse_group_tail. cbn [regexp.p_mode regexp.flush regexp.p_last regexp.p_group regexp.p_done].
  unfold hashRegexp. by rewrite !reverse_cons, reverse_involutive, <- app_assoc.
Qed.

(** A pattern that compiles is not one that is rejected. *)
Lemma step_not_unexpected (st st' : regexp.pstate) (c : ascii) :
  regexp.step st c = Some st' → regexp.unexpectedParen st c = false.
Proof.
  unfold regexp.step, regexp.unexpectedParen.
  destruct (regexp.p_mode st); [|done..].
  destruct (regexp.p_group (regexp.flush st)); [done|].
  destruct (Ascii.eqb c ")") eqn:Hc; [|done].
  apply Ascii.eqb_eq in Hc as ->. by simpl.
Qed.

Lemma parse_not_rejected (pattern : bytes) (st st' : regexp.pstate) :
  regexp.parse pattern st = Some st' → regexp.rejectedFrom pattern st = false.
Proof.
  revert st. induction pattern as [|c pattern IH]; intros st; [done|].
  cbn [regexp.parse regexp.rejectedFrom].
  destruct (regexp.step st c) as [st1|] eqn:Hstep; [|done].
  intros Hparse. by rewrite (step_not_unexpected st st1), (IH st1).
Qed.

Lemma MustCompile_not_rejected (pattern : bytes) (re : regexp.Regexp) :
  regexp.MustCompile pattern = Some re → regexp.rejected pattern = false.
Proof.
  unfold regexp.MustCompile, regexp.rejected.
  destruct (regexp.parse pattern _) as [st|] eqn:Hparse; [|done].
  intros _. by eapply parse_not_rejected.
Qed.

Lemma regexp_MustCompile_hashRegexp (master : bytes) (w : World) :
  plain master →
  regexp_MustCompile (master ++ str "_(\w{8})") w = (Value (hashRegexp master), w).
Proof.
  intros Hm. unfold regexp_MustCompile.
  pose proof (MustCompile_hashRegexp master Hm) as Hre.
  by rewrite (MustCompile_not_rejected _ _ Hre), Hre.
Qed.

(** [regexp_MustCompile] leaves the world as it is. *)
Lemma regexp_MustCompile_world (pattern : bytes) (w : World) :
  (regexp_MustCompile pattern w).2 = w.
Proof.
  unfold regexp_MustCompile. destruct (regexp.rejected pattern); [done|].
  by destruct (regexp.MustCompile pattern).
Qed.

(** ** What the pattern matches *)

Definition wordChars (cap : bytes) : Prop := forallb regexp.isWordChar cap = true.

(** [<master>_(\w{8})] matches [line] at byte offset [i] with the group on
    [cap]. *)
Definition matches_at (master line : bytes) (i : nat) (cap : bytes) : Prop :=
  ∃ pre post,
    line = pre ++ master ++ str "_" ++ cap ++ post
    ∧ length pre = i ∧ length cap = 8 ∧ wordChars cap.

Definition has_match (master line : bytes) : Prop := ∃ i cap, matches_at master line i cap.

(** [cap] is the group of the leftmost match in [line]. *)
Definition leftmost (master line cap : bytes) : Prop :=
  ∃ i, matches_at master line i cap ∧ ∀ j cap', matches_at master line j cap' → i ≤ j.

Lemma matchRep_WordChar (n : nat) (s s' : bytes) :
  regexp.matchRep regexp.WordChar n s = Some s'
  ↔ ∃ cap, s = cap ++ s' ∧ length cap = n ∧ wordChars cap.
Proof.
  unfold wordChars. revert s. induction n as [|n IH]; intros s; simpl.
  - split.
    + intros [= ->]. by exists [].
    + intros (cap & -> & Hlen & _). by apply nil_length_inv in Hlen as ->.
  - destruct s as [|c s].
    + split; [done|]. intros (cap & Heq & Hlen & _). by destruct cap.
    + destruct (regexp.isWordChar c) eqn:Hc.
      * rewrite IH. split.
        -- intros (cap & -> & <- & Hw). exists (c :: cap). simpl. by rewrite Hc, Hw.
        -- intros (cap & Heq & Hlen & Hw). destruct cap as [|d cap]; [done|].
           simplify_eq/=. apply andb_true_iff in Hw as [_ Hw]. by exists cap.
      * split; [done|]. intros (cap & Heq & Hlen & Hw).
        destruct cap as [|d cap]; [done|]. simplify_eq/=.
        apply andb_true_iff in Hw as [Hw _]. congruence.
Qed.

Lemma matchHere_lits (m : bytes) (re : regexp.Regexp) (s : bytes) (r : list bytes * bytes) :
  regexp.matchHere (lits m ++ re) s = Some r
  ↔ ∃ s', s = m ++ s' ∧ regexp.matchHere re s' = Some r.
Proof.
  revert s. induction m as [|c m IH]; intros s; simpl.
  - split; [by exists s | by intros (s' & -> & ?)].
  - destruct s as [|d s].
    + split; [done | by intros (s' & ? & _)].
    + destruct (Ascii.eqb d c) eqn:E.
      * apply eqb_ascii_true in E as ->. rewrite IH. split.
        -- intros (s' & -> & Hr). by exists s'.
        -- intros (s' & Heq & Hr). simplify_eq. by exists s'.
      * split; [done|]. intros (s' & Heq & _). simplify_eq.
        by rewrite Ascii.eqb_refl in E.
Qed.

Lemma take_app_exact {A} (l k : list A) (n : nat) : n = length l → take n (l ++ k) = l.
Proof. intros ->. apply take_app_length. Qed.

Lemma matchHere_tail (s : bytes) :
  regexp.matchHere [regexp.Rep (regexp.Lit "_") 1; regexp.Group [(regexp.WordChar, 8)]] s
  = match s with
    | [] => None
    | c :: s1 =>
        if Ascii.eqb c "_" then
          match regexp.matchRep regexp.WordChar 8 s1 with
          | Some s2 => Some ([take (length (c :: s1) - S (length s2)) s1], s2)
          | None => None
          end
        else None
    end.
Proof.
  destruct s as [|c s1]; [done|].
  cbn [regexp.matchHere regexp.matchBody].
  change (regexp.matchRep (regexp.Lit "_") 1 (c :: s1))
    with (if Ascii.eqb c "_" then Some s1 else None).
  destruct (Ascii.eqb c "_"); [|done].
  by destruct (regexp.matchRep regexp.WordChar 8 s1).
Qed.

Lemma matchHere_hashRegexp (master s : bytes) (caps : list bytes) (rest : bytes) :
  regexp.matchHere (hashRegexp master) s = Some (caps, rest)
  ↔ ∃ cap,
      s = master ++ str "_" ++ cap ++ rest
      ∧ length cap = 8 ∧ wordChars cap ∧ caps = [cap].
Proof.
  unfold hashRegexp. rewrite matchHere_lits. split.
  - intros (s1 & -> & Hr). rewrite matchHere_tail in Hr.
    destruct s1 as [|c s1]; [done|].
    destruct (Ascii.eqb c "_") eqn:E; [|done]. apply eqb_ascii_true in E as ->.
    destruct (regexp.matchRep regexp.WordChar 8 s1) as [s2|] eqn:Hrep; [|done].
    apply matchRep_WordChar in Hrep as (cap & -> & Hlen & Hw).
    injection Hr as <- <-. exists cap. split; [done|]. split; [done|]. split; [done|].
    rewrite take_app_exact; [done|]. cbn [length]. rewrite length_app. lia.
  - intros (cap & -> & Hlen & Hw & ->). exists (str "_" ++ cap ++ rest). split; [done|].
    rewrite matchHere_tail.
    change (str "_" ++ cap ++ rest) with ("_"%char :: cap ++ rest). cbv iota.
    rewrite Ascii.eqb_refl.
    assert (regexp.matchRep regexp.WordChar 8 (cap ++ rest) = Some rest) as ->.
    { apply matchRep_WordChar. by exists cap. }
    rewrite take_app_exact; [done|]. cbn [length]. rewrite length_app. lia.
Qed.

Lemma matches_at_0 (master s cap : bytes) :
  matches_at master s 0 cap
  ↔ ∃ rest, regexp.matchHere (hashRegexp master) s = Some ([cap], rest).
Proof.
  split.
  - intros (pre & post & -> & Hpre & Hlen & Hw). apply nil_length_inv in Hpre as ->.
    exists post. apply matchHere_hashRegexp. by exists cap.
  - intros (rest & Hm). apply matchHere_hashRegexp in Hm as (cap' & -> & Hlen & Hw & [= ->]).
    by exists [], rest.
Qed.

Lemma matches_at_S (master : bytes) (c : ascii) (s : bytes) (i : nat) (cap : bytes) :
  matches_at master (c :: s) (S i) cap ↔ matches_at master s i cap.
Proof.
  split.
  - intros (pre & post & Heq & Hpre & Hrest). destruct pre as [|d pre]; [done|].
    simplify_eq/=. by exists pre, post.
  - intros (pre & post & -> & <- & Hrest). by exists (c :: pre), post.
Qed.

Lemma matches_at_bound (master s : bytes) (i : nat) (cap : bytes) :
  matches_at master s i cap → i < length s.
Proof.
  intros (pre & post & -> & <- & _). rewrite !length_app. simpl. lia.
Qed.

Lemma FindStringSubmatch_Some (master s : bytes) (m : list bytes) :
  regexp.FindStringSubmatch (hashRegexp master) s = Some m →
  ∃ cap, m = [master ++ str "_" ++ cap; cap] ∧ leftmost master s cap.
Proof.
  induction s as [|c s IH]; simpl.
  - destruct (regexp.matchHere (hashRegexp master) []) as [[caps rest]|] eqn:Hm; [|done].
    apply matchHere_hashRegexp in Hm as (cap & Heq & _). by destruct master.
  - destruct (regexp.matchHere (hashRegexp master) (c :: s)) as [[caps rest]|] eqn:Hm.
    + intros [= <-]. pose proof Hm as Hm'.
      apply matchHere_hashRegexp in Hm as (cap & Heq & Hlen & Hw & ->).
      exists cap. split.
      * f_equal. change (S (length s)) with (length (c :: s)). rewrite Heq.
        rewrite !length_app.
        replace (length master + (length (str "_") + (length cap + length rest)) - length rest)
          with (length (master ++ str "_" ++ cap)) by (rewrite !length_app; lia).
        by rewrite !app_assoc, take_app_length, <- !app_assoc.
      * exists 0. split; [|lia]. apply matches_at_0. eauto.
    + intros Hfind. destruct (IH Hfind) as (cap & -> & i & Hi & Hmin).
      exists cap. split; [done|]. exists (S i). split; [by apply matches_at_S|].
      intros [|j] cap' Hj.
      * apply matches_at_0 in Hj as [rest Hj]. congruence.
      * apply matches_at_S, Hmin in Hj. lia.
Qed.

Lemma FindStringSubmatch_None (master s : bytes) :
  regexp.FindStringSubmatch (hashRegexp master) s = None → ¬ has_match master s.
Proof.
  induction s as [|c s IH]; simpl.
  - intros _ (i & cap & Hi). apply matches_at_bound in Hi. simpl in Hi. lia.
  - destruct (regexp.matchHere (hashRegexp master) (c :: s)) as [[caps rest]|] eqn:Hm; [done|].
    intros Hfind ([|i] & cap & Hi).
    + apply matches_at_0 in Hi as [rest Hi]. congruence.
    + apply matches_at_S in Hi. apply (IH Hfind). by exists i, cap.
Qed.

Lemma leftmost_unique (master s cap cap' : bytes) :
  leftmost master s cap → leftmost master s cap' → cap = cap'.
Proof.
  intros (i & Hi & Hmin) (j & Hj & Hmin').
  assert (i = j) as -> by (apply Hmin in Hj; apply Hmin' in Hi; lia).
  destruct Hi as (pre & post & -> & Hpre & Hlen & _).
  destruct Hj as (pre' & post' & Heq & Hpre' & Hlen' & _).
  apply app_inj_1 in Heq as [_ Heq]; [|lia].
  do 2 (apply app_inj_1 in Heq as [_ Heq]; [|done]).
  apply app_inj_1 in Heq as [Heq _]; [done|lia].
Qed.

(** ** The scan of the manifest *)

(** A line on which the loop of [extractOldCommitHash] returns: it has
    the tag as a substring and the pattern matches it. *)
Definition decisive (master yamlTag line : bytes) : Prop :=
  strings.Contains line yamlTag = true ∧ has_match master line.

Lemma leftmost_has_match (master line cap : bytes) :
  leftmost master line cap → has_match master line.
Proof. intros (i & Hi & _). by exists i, cap. Qed.


Lemma scanForHash_first (master yamlTag : bytes) (before : list bytes)
    (line : bytes) (after : list bytes) (cap : bytes) :
  Forall (λ line, ¬ decisive master yamlTag line) before →
  strings.Contains line yamlTag = true →
  leftmost master line cap →
  scanForHash (hashRegexp master) yamlTag (before ++ line :: after) = Some cap.
Proof.
  intros Hbefore Htag Hleft. induction Hbefore as [|l before Hl _ IH]; simpl.
  - rewrite Htag.
    destruct (regexp.FindStringSubmatch (hashRegexp master) line) as [m|] eqn:Hfind.
    + apply FindStringSubmatch_Some in Hfind as (cap' & -> & Hleft'). simpl.
      f_equal. by eapply leftmost_unique.
    + apply FindStringSubmatch_None in Hfind. destruct Hfind. by eapply leftmost_has_match.
  - destruct (strings.Contains l yamlTag) eqn:Hltag; [|done].
    destruct (regexp.FindStringSubmatch (hashRegexp master) l) as [m|] eqn:Hfind; [|done].
    apply FindStringSubmatch_Some in Hfind as (cap' & _ & Hleft').
    destruct Hl. split; [done|]. by eapply leftmost_has_match.
Qed.

Lemma scanForHash_Some (master yamlTag : bytes) (lines : list bytes) (cap : bytes) :
  scanForHash (hashRegexp master) yamlTag lines = Some cap →
  ∃ before line after,
    lines = before ++ line :: after
    ∧ Forall (λ line, ¬ decisive master yamlTag line) before
    ∧ strings.Contains line yamlTag = true
    ∧ leftmost master line cap.
Proof.
  induction lines as [|l lines IH]; [done|]. simpl.
  assert (scanForHash (hashRegexp master) yamlTag lines = Some cap →
          ¬ decisive master yamlTag l →
          ∃ before line after,
            l :: lines = before ++ line :: after
            ∧ Forall (λ line, ¬ decisive master yamlTag line) before
            ∧ strings.Contains line yamlTag = true
            ∧ leftmost master line cap) as Hskip.
  { intros Hscan Hl. destruct (IH Hscan) as (before & line & after & -> & Hb & Htag & Hleft).
    exists (l :: before), line, after. split; [done|]. split; [by constructor|]. done. }
  destruct (strings.Contains l yamlTag) eqn:Htag.
  - destruct (regexp.FindStringSubmatch (hashRegexp master) l) as [m|] eqn:Hfind.
    + apply FindStringSubmatch_Some in Hfind as (cap' & -> & Hleft). simpl.
      intros [= <-]. by exists [], l, lines.
    + intros Hscan. apply Hskip; [done|]. intros [_ Hm].
      by apply FindStringSubmatch_None in Hfind.
  - intros Hscan. apply Hskip; [done|]. intros [Ht _]. congruence.
Qed.

(** ** The lines the scanner yields *)


Lemma tokens_app_fits (braw : list bytes) (raws : list bytes) :
  Forall (λ raw, bufio.fits raw = true) braw →
  bufio.tokens (braw ++ raws) = (bufio.dropCR <$> braw) ++ bufio.tokens raws.
Proof.
  induction 1 as [|raw braw Hfit _ IH]; [done|]. simpl. by rewrite Hfit, IH.
Qed.


(** ** Runs of [extractOldCommitHash] *)

Definition notFound : bytes * option error := ([], Some (str "commit hash not found")).

Lemma extractOldCommitHash_run (w : World) (filePath master yamlTag input : bytes) :
  files w !! filePath = Some input →
  plain master →
  extractOldCommitHash filePath master yamlTag w
  = (Value match scanForHash (hashRegexp master) yamlTag (bufio.Lines input) with
           | Some hash => (hash, None)
           | None => notFound
           end, w).
Proof.
  intros Hin Hm. unfold extractOldCommitHash, os.Open, mbind, IO_bind.
  rewrite Hin, regexp_MustCompile_hashRegexp by done.
  by destruct (scanForHash (hashRegexp master) yamlTag (bufio.Lines input)).
Qed.

(** [extractOldCommitHash] only reads: whatever it returns, the world is
    the one it started in. *)
Lemma extractOldCommitHash_reads_only (w : World) (filePath master yamlTag : bytes) :
  (extractOldCommitHash filePath master yamlTag w).2 = w.
Proof.
  unfold extractOldCommitHash, os.Open, mbind, IO_bind.
  destruct (files w !! filePath) as [input|]; [|done].
  pose proof (regexp_MustCompile_world (master ++ str "_(\w{8})") w) as Hw.
  destruct (regexp_MustCompile (master ++ str "_(\w{8})") w) as [[re| | |] w1];
    cbn [snd] in Hw; subst w1; [|done..].
  by destruct (scanForHash re yamlTag (bufio.Lines input)).
Qed.

(** A manifest that cannot be opened: the error of [os.Open], wrapped. *)
Lemma extractOldCommitHash_open_error (w : World) (filePath master yamlTag : bytes) :
  files w !! filePath = None →
  extractOldCommitHash filePath master yamlTag w
  = (Value ([], Some (str "open file: "
                      ++ os.pathError filePath (str "no such file or directory"))), w).
Proof.
  intros Hin. unfold extractOldCommitHash, os.Open, mbind, IO_bind. rewrite Hin.
  unfold Errorf, fmt.Errorf. simpl. by rewrite app_nil_r.
Qed.

(** The first decisive line that the scanner yields governs. *)
Lemma extractOldCommitHash_first (w : World) (filePath master yamlTag input : bytes)
    (before : list bytes) (line : bytes) (after : list bytes) (cap : bytes) :
  files w !! filePath = Some input →
  plain master →
  bufio.Lines input = before ++ line :: after →
  Forall (λ line, ¬ decisive master yamlTag line) before →
  strings.Contains line yamlTag = true →
  leftmost master line cap →
  extractOldCommitHash filePath master yamlTag w = (Value (cap, None), w).
Proof.
  intros Hin Hm Hlines Hbefore Htag Hleft.
  rewrite (extractOldCommitHash_run _ _ _ _ input) by done.
  by rewrite Hlines, (scanForHash_first _ _ _ _ _ cap).
Qed.

(** The scanner yields the lines up to a line that fits, when those
    before it fit as well. *)
Lemma Lines_fits (input : bytes) (braw : list bytes) (raw : bytes) (araw : list bytes) :
  bufio.rawLines input = braw ++ raw :: araw →
  Forall (λ raw, length raw < bufio.MaxScanTokenSize) (braw ++ [raw]) →
  bufio.Lines input = (bufio.dropCR <$> braw) ++ bufio.dropCR raw :: bufio.tokens araw.
Proof.
  intros Hraws Hfits. unfold bufio.Lines. rewrite Hraws.
  replace (braw ++ raw :: araw) with ((braw ++ [raw]) ++ araw) by by rewrite <- app_assoc.
  rewrite tokens_app_fits, fmap_app, <- app_assoc; [done|].
  eapply Forall_impl; [exact Hfits|]. intros r Hr. by apply Nat.ltb_lt.
Qed.


Lemma leftmost_length (master line cap : bytes) : leftmost master line cap → length cap = 8.
Proof. by intros (i & (pre & post & _ & _ & Hlen & _) & _). Qed.

Lemma leftmost_computed (master line whole cap : bytes) :
  regexp.FindStringSubmatch (hashRegexp master) line = Some [whole; cap] →
  leftmost master line cap.
Proof. intros Hfind. by apply FindStringSubmatch_Some in Hfind as (cap' & [= _ <-] & Hleft). Qed.

Lemma not_decisive_computed (master yamlTag line : bytes) :
  strings.Contains line yamlTag
  && bool_decide (is_Some (regexp.FindStringSubmatch (hashRegexp master) line)) = false →
  ¬ decisive master yamlTag line.
Proof.
  intros Hb [Htag Hm]. rewrite Htag in Hb. simpl in Hb.
  apply bool_decide_eq_false in Hb.
  destruct (regexp.FindStringSubmatch (hashRegexp master) line) eqn:Hfind.
  - by destruct Hb.
  - by apply FindStringSubmatch_None in Hfind.
Qed.

(** ** Old-identifier extraction: the claims *)

(** C4, as it holds.  Let the branch name be plain text in a pattern
    (ASCII bytes, none an operator of the regexp syntax); let a line of
    the manifest contain the tag name and match [<master>_(\w{8})], let no
    line before it do both, and let that line and the lines before it be
    shorter than the scanner's buffer of 65536 bytes.  Then extraction
    returns the eight bytes of the group of the leftmost match on that
    line; the lines before it, also those that contain the tag name
    without a match, are passed over. *)
Theorem extractOldCommitHash_first_match (w : World)
    (filePath master yamlTag input : bytes)
    (braw : list bytes) (raw : bytes) (araw : list bytes) (cap : bytes) :
  files w !! filePath = Some input →
  plain master →
  bufio.rawLines input = braw ++ raw :: araw →
  Forall (λ raw, length raw < bufio.MaxScanTokenSize) (braw ++ [raw]) →
  Forall (λ raw, ¬ (strings.Contains (bufio.dropCR raw) yamlTag = true
                    ∧ has_match master (bufio.dropCR raw))) braw →
  strings.Contains (bufio.dropCR raw) yamlTag = true →
  leftmost master (bufio.dropCR raw) cap →
  extractOldCommitHash filePath master yamlTag w = (Value (cap, None), w)
  ∧ length cap = 8.
Proof.
  intros Hin Hm Hraws Hfits Hbefore Htag Hleft. split.
  - eapply extractOldCommitHash_first; [done | done | by apply Lines_fits | | done | done].
    by apply Forall_fmap.
  - by eapply leftmost_length.
Qed.

(** The manifest of the counterexample to C4: a first line of 65536
    bytes, then the pin. *)
Definition longLine : bytes := replicate bufio.MaxScanTokenSize "x"%char.
Definition behindLongLine : bytes := longLine ++ [NL] ++ pin_a ++ [NL].

Lemma rawLines_first (line rest : bytes) :
  NL ∉ line → bufio.rawLines (line ++ NL :: rest) = line :: bufio.rawLines rest.
Proof.
  induction line as [|c line IH]; intros Hnl; [done|].
  apply not_elem_of_cons in Hnl as [Hc Hnl].
  cbn [app bufio.rawLines]. rewrite (IH Hnl).
  destruct (Ascii.eqb c NL) eqn:E; [|done].
  by apply eqb_ascii_true in E.
Qed.

Lemma longLine_plain (c : ascii) : c ∈ longLine → c = "x"%char.
Proof. unfold longLine. by intros [-> _]%elem_of_replicate. Qed.

Lemma longLine_no_fit : bufio.fits longLine = false.
Proof. unfold bufio.fits, longLine. rewrite length_replicate. apply Nat.ltb_irrefl. Qed.

Lemma dropCR_id (data : bytes) : CR ∉ data → bufio.dropCR data = data.
Proof.
  induction data as [|c data IH]; [done|]. intros [Hc Hd]%not_elem_of_cons.
  cbn [bufio.dropCR]. destruct data as [|d data].
  - destruct (Ascii.eqb c CR) eqn:E; [|done]. by apply eqb_ascii_true in E.
  - by rewrite (IH Hd).
Qed.

Lemma pin_a_has_tag : strings.Contains (bufio.dropCR pin_a) (str "tag") = true.
Proof. reflexivity. Qed.

Lemma pin_a_leftmost : leftmost (str "master") (bufio.dropCR pin_a) (str "aaaaaaaa").
Proof. eapply leftmost_computed. by vm_compute. Qed.

Lemma master_plain : plain (str "master").
Proof. reflexivity. Qed.

(** C4 fails as stated: the second line is the first one that contains
    the tag name and matches the pattern, yet extraction fails, because
    the scanner gives up on the first line, which does not fit its
    buffer. *)
Lemma extractOldCommitHash_stops_at_long_line :
  let w := {| files := {[ str "values.yaml" := behindLongLine ]};
              readonly := ∅; history := [] |} in
  bufio.rawLines behindLongLine = [longLine; pin_a]
  ∧ strings.Contains (bufio.dropCR longLine) (str "tag") = false
  ∧ strings.Contains (bufio.dropCR pin_a) (str "tag") = true
  ∧ leftmost (str "master") (bufio.dropCR pin_a) (str "aaaaaaaa")
  ∧ extractOldCommitHash (str "values.yaml") (str "master") (str "tag") w
    = (Value ([], Some (str "commit hash not found")), w).
Proof.
  intros w.
  assert (bufio.rawLines behindLongLine = [longLine; pin_a]) as Hraws.
  { unfold behindLongLine. cbn [app]. rewrite rawLines_first.
    - f_equal.
    - by intros ?%longLine_plain. }
  split; [done|]. split.
  { rewrite dropCR_id by (by intros ?%longLine_plain).
    apply Contains_false. intros pre post Heq.
    assert ("t"%char ∈ longLine) as Ht.
    { rewrite Heq. apply elem_of_app. right. apply elem_of_app. left. by left. }
    by apply longLine_plain in Ht. }
  split; [exact pin_a_has_tag|].
  split; [exact pin_a_leftmost|].
  rewrite (extractOldCommitHash_run _ _ _ _ behindLongLine);
    [|apply lookup_singleton_eq|exact master_plain].
  unfold bufio.Lines. rewrite Hraws. cbn [bufio.tokens]. by rewrite longLine_no_fit.
Qed.






(** ** A postcondition logic for the calls of a run *)

(** Whatever the run of [m]: the calls it adds to the history satisfy [P],
    and a value it returns satisfies [Q]. *)
Definition calls {A} (P : Call → Prop) (m : IO A) (Q : A → Prop) : Prop :=
  ∀ w, ∃ new,
    history (m w).2 = history w ++ new
    ∧ Forall P new
    ∧ ∀ a, (m w).1 = Value a → Q a.

Section Calls.

Context (P : Call → Prop).

Lemma calls_ret {A} (a : A) (Q : A → Prop) : Q a → calls P (mret a) Q.
Proof.
  intros HQ w. exists []. rewrite app_nil_r. split; [done|]. split; [done|].
  by intros a' [= <-].
Qed.

Lemma calls_abort {A} (o : outcome A) (Q : A → Prop) :
  (∀ a, o = Value a → Q a) → calls P (abort o) Q.
Proof.
  intros HQ w. exists []. rewrite app_nil_r. split; [done|]. split; [done|]. exact HQ.
Qed.

Lemma calls_bind {A B} (m : IO A) (k : A → IO B) (Q1 : A → Prop) (Q : B → Prop) :
  calls P m Q1 → (∀ a, Q1 a → calls P (k a) Q) → calls P (m ≫= k) Q.
Proof.
  intros Hm Hk w. destruct (Hm w) as (new1 & Hh1 & HP1 & HQ1).
  unfold mbind, IO_bind. destruct (m w) as [[a| | |] w1] eqn:Hrun; simpl in *.
  - destruct (Hk a (HQ1 a eq_refl) w1) as (new2 & Hh2 & HP2 & HQ2).
    exists (new1 ++ new2). rewrite Hh2, Hh1, <- app_assoc.
    split; [done|]. split; [by apply Forall_app|]. done.
  - exists new1. by repeat split.
  - exists new1. by repeat split.
  - exists new1. by repeat split.
Qed.

Lemma calls_weaken {A} (m : IO A) (Q Q' : A → Prop) :
  calls P m Q → (∀ a, Q a → Q' a) → calls P m Q'.
Proof.
  intros Hm HQ w. destruct (Hm w) as (new & Hh & HP & Ha).
  exists new. split; [done|]. split; [done|]. intros a Hv. by apply HQ, Ha.
Qed.

Lemma calls_modelled {A} (r : option A) : calls P (modelled r) (λ a, r = Some a).
Proof.
  destruct r as [a|]; simpl.
  - by apply calls_ret.
  - by apply calls_abort.
Qed.

Lemma calls_record (c : Call) : P c → calls P (record c) (λ _, True).
Proof.
  intros Hc w. exists [c]. split; [done|]. split; [by constructor|]. done.
Qed.

Lemma calls_log_Fatal {A} (message : bytes) (Q : A → Prop) : calls P (log_Fatal message) Q.
Proof. by apply calls_abort. Qed.

Lemma calls_log_Fatalf {A} (f : bytes) (operands : list bytes) (Q : A → Prop) :
  calls P (log_Fatalf f operands) Q.
Proof.
  eapply calls_bind; [apply calls_modelled|]. intros message _. apply calls_log_Fatal.
Qed.

Lemma calls_Errorf (f : bytes) (operands : list bytes) :
  calls P (Errorf f operands) (λ _, True).
Proof. eapply calls_weaken; [apply calls_modelled|done]. Qed.

Lemma calls_regexp_MustCompile (pattern : bytes) :
  calls P (regexp_MustCompile pattern) (λ _, True).
Proof.
  unfold regexp_MustCompile. destruct (regexp.rejected pattern).
  - by apply calls_abort.
  - eapply calls_weaken; [apply calls_modelled|done].
Qed.

Lemma calls_slice_to (s : bytes) (hi : nat) : calls P (slice_to s hi) (λ r, r = take hi s).
Proof.
  unfold slice_to. destruct (hi <=? length s).
  - by apply calls_ret.
  - by apply calls_abort.
Qed.

Lemma calls_Open (name : bytes) : calls P (os.Open name) (λ _, True).
Proof.
  intros w. exists []. rewrite app_nil_r. unfold os.Open.
  by destruct (files w !! name).
Qed.

Lemma calls_WriteFile (name data : bytes) : calls P (os.WriteFile name data) (λ _, True).
Proof.
  intros w. exists []. rewrite app_nil_r. unfold os.WriteFile.
  by case_bool_decide.
Qed.

Context (outside : Outside).

Lemma calls_exec_Run (name : bytes) (args : list bytes) :
  P (CallRun name args) → calls P (exec_Run outside name args) (λ _, True).
Proof.
  intros Hc w. exists [CallRun name args]. unfold exec_Run.
  destruct (cmd_Run outside w name args) as [answer files']. simpl.
  split; [done|]. split; [by constructor|]. done.
Qed.

Lemma calls_GetRef (gh : github.Client) (owner repo ref : bytes) :
  P (CallGetRef gh owner repo ref) → calls P (GetRef outside gh owner repo ref) (λ _, True).
Proof.
  intros Hc w. exists [CallGetRef gh owner repo ref].
  split; [done|]. split; [by constructor|]. done.
Qed.

Lemma calls_Create (gh : github.Client) (owner repo : bytes) (pull : github.NewPullRequest) :
  P (CallCreate gh owner repo pull) → calls P (Create outside gh owner repo pull) (λ _, True).
Proof.
  intros Hc w. exists [CallCreate gh owner repo pull].
  split; [done|]. split; [by constructor|]. done.
Qed.

End Calls.

Create HintDb calls.

#[export] Hint Resolve calls_modelled calls_Errorf calls_regexp_MustCompile calls_slice_to
  calls_Open calls_WriteFile
  calls_exec_Run calls_GetRef calls_Create calls_record : calls.

(** One step through a monadic program: a bind is split, a result that
    the program branches on is taken apart. *)
Ltac calls_step :=
  first
    [ apply calls_log_Fatalf
    | apply calls_log_Fatal
    | apply calls_ret; done
    | eapply calls_bind; [solve [eauto with calls] | cbv beta; intros ? ?]
    | eapply calls_weaken; [solve [eauto with calls] | done]
    | lazymatch goal with
      | |- calls _ (match ?x with _ => _ end) _ => destruct x
      end ].

Ltac calls_auto := repeat calls_step.

Section ProgramCalls.

Context (P : Call → Prop) (outside : Outside).

(** The calls [P] says nothing about. *)
Hypothesis P_Run : ∀ name args, P (CallRun name args).
Hypothesis P_GetRef : ∀ gh owner repo ref, P (CallGetRef gh owner repo ref).
Hypothesis P_Print : ∀ text, P (CallPrint text).

Local Hint Resolve P_Run P_GetRef P_Print : calls.

Lemma calls_runCommand (name : bytes) (args : list bytes) :
  calls P (runCommand outside name args) (λ _, True).
Proof. unfold runCommand. calls_auto. Qed.

Local Hint Resolve calls_runCommand : calls.

Lemma calls_extractNewCommitHash (gh : github.Client) (master owner repository : bytes) :
  calls P (extractNewCommitHash outside gh master owner repository) (λ _, True).
Proof. unfold extractNewCommitHash. calls_auto. Qed.

Lemma calls_extractOldCommitHash (filePath master yamlTag : bytes) :
  calls P (extractOldCommitHash filePath master yamlTag) (λ _, True).
Proof. unfold extractOldCommitHash. calls_auto. Qed.

Lemma calls_createOrCheckoutBranch (branch : bytes) :
  calls P (createOrCheckoutBranch outside branch) (λ _, True).
Proof. unfold createOrCheckoutBranch. calls_auto. Qed.

Lemma calls_updateYamlFile (filePath master yamlTag oldCommitHash newCommitHash : bytes) :
  calls P (updateYamlFile filePath master yamlTag oldCommitHash newCommitHash) (λ _, True).
Proof. unfold updateYamlFile, os.ReadFile. calls_auto. Qed.

Lemma calls_gitCommit (filePath env repo commitHash : bytes) :
  calls P (gitCommit outside filePath env repo commitHash) (λ _, True).
Proof. unfold gitCommit. calls_auto. Qed.

Lemma calls_gitPush (branch : bytes) : calls P (gitPush outside branch) (λ _, True).
Proof. unfold gitPush. calls_auto. Qed.

Lemma calls_findToken (lines : list bytes) (ghToken : bytes) :
  calls P (findToken lines ghToken) (λ _, True).
Proof.
  induction lines as [|line lines IH]; cbn [findToken]; [by apply calls_ret|].
  destruct (strings.Contains line (str "Token:")); [|exact IH].
  calls_step. destruct (2 <=? length a); [|exact IH].
  destruct (a !! 2); [by apply calls_ret | by apply calls_abort].
Qed.

Lemma calls_resolveNewCommitHash (gh : github.Client)
    (newCommitHashFlag master owner repo : bytes) :
  calls P (resolveNewCommitHash outside gh newCommitHashFlag master owner repo) (λ _, True).
Proof.
  unfold resolveNewCommitHash. case_bool_decide; [|by apply calls_ret].
  eapply calls_bind; [apply calls_extractNewCommitHash|]. cbv beta. intros [h err] _.
  destruct err; [apply calls_log_Fatalf | by apply calls_ret].
Qed.

Lemma calls_createPullRequest (gh : github.Client)
    (owner branch master title description : bytes) :
  P (CallCreate gh owner (str "devops")
       {| github.Title := Some title; github.Head := Some branch;
          github.Base := Some master; github.Body := Some description |}) →
  calls P (createPullRequest outside gh owner branch master title description) (λ _, True).
Proof. intros HP. unfold createPullRequest. calls_auto. Qed.

End ProgramCalls.

(** ** The pull request *)

(** What [main] with the flags [fl] may ask of [PullRequests.Create]. *)
Definition toDevops (fl : Flags) (c : Call) : Prop :=
  match c with
  | CallCreate gh owner repo pull =>
      owner = flag_o fl
      ∧ repo = str "devops"
      ∧ ∃ newCommitHash oldCommitHash,
          github.Head pull = branchName (flag_r fl) (flag_e fl) newCommitHash
          ∧ github.Title pull = title (flag_r fl) (flag_e fl) newCommitHash
          ∧ github.Body pull
            = description (flag_o fl) (flag_r fl) oldCommitHash newCommitHash
          ∧ github.Base pull = Some (flag_m fl)
  | _ => True
  end.

(** The calls of [main]: those of its parts, in their order; the only
    lookup is the one of [resolveNewCommitHash], and the only pull request
    is made of the three names. *)
Lemma calls_main_with (P : Call → Prop) (Qnew : bytes → Prop)
    (outside : Outside) (fl : Flags) :
  (∀ name args, P (CallRun name args)) →
  (∀ text, P (CallPrint text)) →
  (∀ gh, calls P (resolveNewCommitHash outside gh (flag_c fl) (flag_m fl)
                    (flag_o fl) (flag_r fl)) Qnew) →
  (∀ gh newCommitHash oldCommitHash branch ttl body,
      Qnew newCommitHash →
      branchName (flag_r fl) (flag_e fl) newCommitHash = Some branch →
      title (flag_r fl) (flag_e fl) newCommitHash = Some ttl →
      description (flag_o fl) (flag_r fl) oldCommitHash newCommitHash = Some body →
      P (CallCreate gh (flag_o fl) (str "devops")
           {| github.Title := Some ttl; github.Head := Some branch;
              github.Base := Some (flag_m fl); github.Body := Some body |})) →
  calls P (main outside fl) (λ _, True).
Proof.
  intros HRun HPrint Hresolve HCreate.
  unfold main.
  destruct (negb _ && negb _); [apply calls_log_Fatal|].
  case_bool_decide; [apply calls_log_Fatal|].
  case_bool_decide; [apply calls_log_Fatal|].
  eapply calls_bind; [by apply calls_runCommand|]. cbv beta. intros [out err] _.
  destruct err; [apply calls_log_Fatalf|].
  eapply calls_bind; [by apply calls_findToken|]. cbv beta. intros ghToken _.
  eapply calls_bind; [by apply Hresolve|]. cbv beta.
  intros newCommitHash Hnew.
  eapply calls_bind; [by apply calls_extractOldCommitHash|]. cbv beta.
  intros [oldCommitHash err] _.
  destruct err; [apply calls_log_Fatalf|].
  eapply calls_bind; [apply calls_modelled|]. cbv beta. intros branch Hbranch.
  eapply calls_bind; [by apply calls_createOrCheckoutBranch|]. cbv beta. intros err _.
  destruct err; [apply calls_log_Fatalf|].
  eapply calls_bind; [by apply calls_updateYamlFile|]. cbv beta. intros err _.
  destruct err; [apply calls_log_Fatalf|].
  eapply calls_bind; [by apply calls_gitCommit|]. cbv beta. intros err _.
  destruct err; [apply calls_log_Fatalf|].
  eapply calls_bind; [by apply calls_gitPush|]. cbv beta. intros err _.
  destruct err; [apply calls_log_Fatalf|].
  eapply calls_bind; [apply calls_modelled|]. cbv beta. intros ttl Httl.
  eapply calls_bind; [apply calls_modelled|]. cbv beta. intros body Hbody.
  eapply calls_bind.
  { apply calls_createPullRequest. by eapply HCreate. }
  cbv beta. intros [url err] _.
  destruct err; [apply calls_log_Fatalf|].
  eapply calls_bind; [apply calls_modelled|]. cbv beta. intros text _.
  by apply calls_record.
Qed.

Lemma calls_main (outside : Outside) (fl : Flags) :
  calls (toDevops fl) (main outside fl) (λ _, True).
Proof.
  apply (calls_main_with _ (λ _, True)); [done | done | |].
  - intros gh. by apply calls_resolveNewCommitHash.
  - intros gh new old branch ttl body _ Hbranch Httl Hbody.
    split; [done|]. split; [done|]. exists new, old. by simpl.
Qed.

(** What [main] may ask of the outside when [-c] is given. *)
Definition explicitOnly (fl : Flags) (c : Call) : Prop :=
  match c with
  | CallGetRef _ _ _ _ => False
  | CallCreate _ _ _ pull =>
      github.Head pull = branchName (flag_r fl) (flag_e fl) (flag_c fl)
      ∧ github.Title pull = title (flag_r fl) (flag_e fl) (flag_c fl)
  | _ => True
  end.

(** With a non-empty [-c] flag, a whole run of [main] looks no reference
    up, and the pull request it may create is named after the flag. *)
Lemma main_explicit_identifier (outside : Outside) (fl : Flags) (w : World) :
  flag_c fl ≠ [] →
  ∃ new,
    history (main outside fl w).2 = history w ++ new
    ∧ Forall (explicitOnly fl) new.
Proof.
  intros Hflag.
  destruct (calls_main_with (explicitOnly fl) (λ new, new = flag_c fl) outside fl)
    with (w := w) as (new & Hh & HP & _); [done | done | | | by exists new].
  - intros gh. unfold resolveNewCommitHash.
    rewrite bool_decide_eq_false_2 by done. by apply calls_ret.
  - intros gh new old branch ttl body -> Hbranch Httl Hbody. by simpl.
Qed.

(** Whatever the flags, the files and the answers of the outside: a
    request to [PullRequests.Create] in a run of [main] is for the
    repository [devops] of the owner given with [-o]. *)
Lemma main_creates_in_devops (outside : Outside) (fl : Flags) (w : World) :
  ∃ new,
    history (main outside fl w).2 = history w ++ new
    ∧ Forall (toDevops fl) new.
Proof. destruct (calls_main outside fl w) as (new & Hh & HP & _). by exists new. Qed.

(** ** The new identifier *)

(** The world after one more call. *)
Definition afterCall (w : World) (c : Call) : World :=
  {| files := files w; readonly := readonly w; history := history w ++ [c] |}.

Lemma extractNewCommitHash_lookup_error (outside : Outside) (gh : github.Client)
    (master owner repository : bytes) (w : World)
    (ref : option github.Reference) (e : error) :
  Git_GetRef outside w gh owner repository (str "refs/heads/" ++ master) = (ref, Some e) →
  extractNewCommitHash outside gh master owner repository w
  = (Value ([], Some (str "error getting ref: " ++ e)),
     afterCall w (CallGetRef gh owner repository (str "refs/heads/" ++ master))).
Proof.
  intros Hget. unfold extractNewCommitHash, GetRef, mbind, IO_bind. rewrite Hget.
  simpl. by rewrite app_nil_r.
Qed.

Lemma slice_to_ok (s : bytes) (hi : nat) (w : World) :
  hi ≤ length s → slice_to s hi w = (Value (take hi s), w).
Proof. intros H. unfold slice_to. apply Nat.leb_le in H. by rewrite H. Qed.

Lemma extractNewCommitHash_tip (outside : Outside) (gh : github.Client)
    (master owner repository : bytes) (w : World)
    (ref : github.Reference) (object : github.GitObject) (sha : bytes) :
  Git_GetRef outside w gh owner repository (str "refs/heads/" ++ master) = (Some ref, None) →
  github.Object ref = Some object →
  github.SHA object = Some sha →
  8 ≤ length sha →
  extractNewCommitHash outside gh master owner repository w
  = (Value (take 8 sha, None),
     afterCall w (CallGetRef gh owner repository (str "refs/heads/" ++ master))).
Proof.
  intros Hget Hobj Hsha Hlen.
  assert (github.GetSHA (github.GetObject (Some ref)) = sha) as Hs.
  { unfold github.GetSHA, github.GetObject. simpl. rewrite Hobj. simpl. by rewrite Hsha. }
  unfold extractNewCommitHash, GetRef, mbind, IO_bind.
  rewrite Hget. cbv beta iota. rewrite Hs, slice_to_ok by done. done.
Qed.

(** An outside whose reference lookup succeeds with a reference that has
    no object. *)
Definition refWithoutObject : github.Reference :=
  {| github.Ref := Some (str "refs/heads/master"); github.Object := None |}.

Definition answersWithoutObject : Outside :=
  {| cmd_Run := λ w _ _, (([], None), files w);
     Git_GetRef := λ _ _ _ _ _, (Some refWithoutObject, None);
     PullRequests_Create := λ _ _ _ _ _, (None, None) |}.

(** C5, where the code departs from it.  When the lookup returns a
    reference without an object and no error, [extractNewCommitHash] does
    not return an error: the nil-safe getters give the empty string, and
    slicing its first eight bytes panics. *)
Theorem extractNewCommitHash_panics_without_object (gh : github.Client)
    (master owner repository : bytes) (w : World) :
  (extractNewCommitHash answersWithoutObject gh master owner repository w).1
  = Panicked (SliceBoundsOutOfRange 8 0).
Proof. reflexivity. Qed.

(** C8. A non-empty [-c] flag is the new identifier as it stands,
    whatever it is made of; nothing is asked of the outside, and the world
    does not change. *)
Theorem resolveNewCommitHash_explicit (outside : Outside) (gh : github.Client)
    (newCommitHashFlag master owner repo : bytes) (w : World) :
  newCommitHashFlag ≠ [] →
  resolveNewCommitHash outside gh newCommitHashFlag master owner repo w
  = (Value newCommitHashFlag, w).
Proof.
  intros Hflag. unfold resolveNewCommitHash. by rewrite bool_decide_eq_false_2.
Qed.

(** ** The names *)

Lemma upperByte_not_lower (s : bytes) :
  existsb strings.isLower s = false → map strings.upperByte s = s.
Proof.
  induction s as [|c s IH]; [done|]. simpl. intros [Hc Hs]%orb_false_iff.
  rewrite (IH Hs). unfold strings.upperByte. by rewrite Hc.
Qed.

Lemma ToUpper_ascii (s : bytes) :
  forallb strings.isASCII s = true → strings.ToUpper s = Some (map strings.upperByte s).
Proof.
  intros Hs. unfold strings.ToUpper. rewrite Hs.
  destruct (existsb strings.isLower s) eqn:E; [done|]. by rewrite upperByte_not_lower.
Qed.

(** C7. The names are functions of their inputs, of these forms: the
    branch is [<repository>_<environment>_<newIdentifier>], the title is
    [<repository> <ENVIRONMENT> <newIdentifier>] with the environment in
    upper case, and the description is
    [https://github.com/<owner>/<repository>/compare/<old>...<new>]. *)
Theorem names_format (owner repo env oldCommitHash newCommitHash : bytes) :
  forallb strings.isASCII env = true →
  branchName repo env newCommitHash
  = Some (repo ++ str "_" ++ env ++ str "_" ++ newCommitHash)
  ∧ title repo env newCommitHash
    = Some (repo ++ str " " ++ map strings.upperByte env ++ str " " ++ newCommitHash)
  ∧ description owner repo oldCommitHash newCommitHash
    = Some (str "https://github.com/" ++ owner ++ str "/" ++ repo ++ str "/compare/"
            ++ oldCommitHash ++ str "..." ++ newCommitHash).
Proof.
  intros Henv. split; [|split].
  - unfold branchName, fmt.Sprintf. simpl. by rewrite app_nil_r.
  - unfold title, fmt.Sprintf. rewrite ToUpper_ascii by done. simpl. by rewrite app_nil_r.
  - unfold description, fmt.Sprintf. simpl. by rewrite app_nil_r.
Qed.

(** * Instances *)

(** ** A run from end to end *)

(** An outside where every command succeeds, [gh] prints a token and the
    API answers. *)
Definition cooperative : Outside :=
  {| cmd_Run := λ w name _,
       if bool_decide (name = str "gh")
       then ((str "github.com" ++ [NL] ++ str "  - Token: gho_token" ++ [NL], None), files w)
       else (([], None), files w);
     Git_GetRef := λ _ _ _ _ ref,
       (Some {| github.Ref := Some ref;
                github.Object := Some {| github.SHA := Some (str "0123456789abcdef") |} |},
        None);
     PullRequests_Create := λ _ _ _ _ _,
       (Some {| github.HTMLURL := Some (str "https://github.com/acme/devops/pull/1") |},
        None) |}.

Definition manifest1 : bytes := pin (str "image") (str "master") (str "11111111") ++ [NL].

Definition world1 : World :=
  {| files := {[ str "values.yaml" := manifest1 ]}; readonly := ∅; history := [] |}.

Definition flags1 : Flags :=
  {| flag_c := str "22222222"; flag_o := str "acme"; flag_r := str "repo";
     flag_e := str "dev"; flag_f := str "values.yaml"; flag_t := str "image";
     flag_m := str "master" |}.

(** The scenario of the specification: the manifest [image:
    "master_11111111"], the tag [image], the explicit new identifier
    [22222222]. *)
Example main_end_to_end :
  let '(result, w) := main cooperative flags1 world1 in
  result = Value ()
  ∧ files w !! str "values.yaml"
    = Some (pin (str "image") (str "master") (str "22222222") ++ [NL])
  ∧ CallRun (str "git") [str "checkout"; str "repo_dev_22222222"] ∈ history w
  ∧ CallCreate {| github.AccessToken := str "gho_token" |} (str "acme") (str "devops")
      {| github.Title := Some (str "repo DEV 22222222");
         github.Head := Some (str "repo_dev_22222222");
         github.Base := Some (str "master");
         github.Body := Some (str "https://github.com/acme/repo/compare/11111111...22222222") |}
    ∈ history w.
Proof.
  vm_compute. split; [done|]. split; [done|].
  split; [do 2 right; by left | do 6 right; by left].
Qed.

(** Without [-c] the tip of the main branch is looked up, and a lookup
    that answers without an object crashes the run. *)
Example main_panics_without_object :
  (main answersWithoutObject
     {| flag_c := []; flag_o := str "acme"; flag_r := str "repo"; flag_e := str "dev";
        flag_f := str "values.yaml"; flag_t := str "image"; flag_m := str "master" |}
     world1).1
  = Panicked (SliceBoundsOutOfRange 8 0).
Proof. reflexivity. Qed.

(** ** The theorems at concrete inputs *)

Lemma updateYamlFile_replaces_first_occurrence_witness :
  files world1 !! str "values.yaml" = Some manifest1
  ∧ (str "values.yaml" ∉ readonly world1)
  ∧ ∃ output,
      updateYamlFile (str "values.yaml") (str "master") (str "image")
        (str "11111111") (str "22222222") world1
      = (Value None,
         {| files := <[str "values.yaml" := output]> (files world1);
            readonly := readonly world1;
            history := history world1 |})
      ∧ (((∀ pre post,
              manifest1 ≠ pre ++ pin (str "image") (str "master") (str "11111111") ++ post)
          ∧ output = manifest1)
         ∨ (∃ pre post,
               manifest1 = pre ++ pin (str "image") (str "master") (str "11111111") ++ post
               ∧ output = pre ++ pin (str "image") (str "master") (str "22222222") ++ post
               ∧ ∀ pre' post',
                   manifest1
                   = pre' ++ pin (str "image") (str "master") (str "11111111") ++ post' →
                   length pre ≤ length pre')).
Proof.
  split; [reflexivity|]. split; [apply not_elem_of_empty|].
  apply (updateYamlFile_replaces_first_occurrence world1 (str "values.yaml") (str "master")
           (str "image") (str "11111111") (str "22222222") manifest1).
  - reflexivity.
  - apply not_elem_of_empty.
Defined.

Definition manifestA : bytes := pin_a ++ [NL].

Definition worldA : World :=
  {| files := {[ str "values.yaml" := manifestA ]}; readonly := ∅; history := [] |}.

Lemma manifestA_once : occurs_once pin_a manifestA.
Proof.
  exists 0. split; [by exists [], [NL]|]. intros j Hj.
  pose proof (occurs_at_bound _ _ _ Hj) as Hb. simpl in Hb.
  destruct j as [|[|j]]; [done| |lia].
  pose proof (occurs_at_lookup _ _ _ 0 Hj ltac:(simpl; lia)) as Hl. discriminate Hl.
Qed.

Lemma updateYamlFile_twice_witness :
  files worldA !! str "values.yaml" = Some manifestA
  ∧ (str "values.yaml" ∉ readonly worldA)
  ∧ occurs_once pin_a manifestA
  ∧ ∃ w1 once,
      updateYamlFile (str "values.yaml") (str "master") (str "tag")
        (str "aaaaaaaa") (str "bbbbbbbb") worldA = (Value None, w1)
      ∧ files w1 !! str "values.yaml" = Some once
      ∧ strings.Contains once pin_b = true
      ∧ updateYamlFile (str "values.yaml") (str "master") (str "tag")
          (str "aaaaaaaa") (str "bbbbbbbb") w1 = (Value None, w1).
Proof.
  split; [reflexivity|]. split; [apply not_elem_of_empty|]. split; [exact manifestA_once|].
  apply (updateYamlFile_twice worldA (str "values.yaml") manifestA).
  - reflexivity.
  - apply not_elem_of_empty.
  - exact manifestA_once.
Defined.

(** A manifest with a comment that names the tag, another key on the
    same branch, and the pin. *)
Definition manifest3 : bytes :=
  str "# image pin, updated by the release job" ++ [NL]
  ++ pin (str "chart") (str "master") (str "99999999") ++ [NL]
  ++ pin (str "image") (str "master") (str "11111111") ++ [CR; NL].

Definition world3 : World :=
  {| files := {[ str "values.yaml" := manifest3 ]}; readonly := ∅; history := [] |}.

Definition before3 : list bytes :=
  [str "# image pin, updated by the release job";
   pin (str "chart") (str "master") (str "99999999")].

Definition raw3 : bytes := pin (str "image") (str "master") (str "11111111") ++ [CR].

Lemma manifest3_fits : Forall (λ raw, length raw < bufio.MaxScanTokenSize) (before3 ++ [raw3]).
Proof.
  unfold before3. cbn [app].
  do 3 (constructor; [apply Nat.ltb_lt; reflexivity|]). constructor.
Qed.

Lemma manifest3_before :
  Forall (λ raw, ¬ (strings.Contains (bufio.dropCR raw) (str "image") = true
                    ∧ has_match (str "master") (bufio.dropCR raw))) before3.
Proof.
  unfold before3.
  do 2 (constructor; [apply not_decisive_computed; reflexivity|]). constructor.
Qed.

Lemma manifest3_leftmost : leftmost (str "master") (bufio.dropCR raw3) (str "11111111").
Proof. eapply leftmost_computed. by vm_compute. Qed.

Lemma extractOldCommitHash_first_match_witness :
  files world3 !! str "values.yaml" = Some manifest3
  ∧ plain (str "master")
  ∧ bufio.rawLines manifest3 = before3 ++ raw3 :: []
  ∧ Forall (λ raw, length raw < bufio.MaxScanTokenSize) (before3 ++ [raw3])
  ∧ Forall (λ raw, ¬ (strings.Contains (bufio.dropCR raw) (str "image") = true
                      ∧ has_match (str "master") (bufio.dropCR raw))) before3
  ∧ strings.Contains (bufio.dropCR raw3) (str "image") = true
  ∧ leftmost (str "master") (bufio.dropCR raw3) (str "11111111")
  ∧ extractOldCommitHash (str "values.yaml") (str "master") (str "image") world3
    = (Value (str "11111111", None), world3)
  ∧ length (str "11111111") = 8.
Proof.
  split; [reflexivity|]. split; [reflexivity|]. split; [reflexivity|].
  split; [exact manifest3_fits|]. split; [exact manifest3_before|].
  split; [reflexivity|]. split; [exact manifest3_leftmost|].
  apply (extractOldCommitHash_first_match world3 (str "values.yaml") (str "master")
           (str "image") manifest3 before3 raw3 [] (str "11111111")).
  - reflexivity.
  - reflexivity.
  - reflexivity.
  - exact manifest3_fits.
  - exact manifest3_before.
  - reflexivity.
  - exact manifest3_leftmost.
Defined.




(** The branch name is a pattern of its own: on the branch [(mas)ter] its
    group is the first group, and the pin of the branch [master] is read
    for it. *)
Example extractOldCommitHash_group_in_branch_name :
  extractOldCommitHash (str "values.yaml") (str "(mas)ter") (str "image") world3
  = (Value (str "mas", None), world3).
Proof. by vm_compute. Qed.
















Lemma names_format_witness :
  forallb strings.isASCII (str "prod") = true
  ∧ branchName (str "svc") (str "prod") (str "cc0cc0cc") = Some (str "svc_prod_cc0cc0cc")
  ∧ title (str "svc") (str "prod") (str "cc0cc0cc") = Some (str "svc PROD cc0cc0cc")
  ∧ description (str "acme") (str "svc") (str "11111111") (str "cc0cc0cc")
    = Some (str "https://github.com/acme/svc/compare/11111111...cc0cc0cc").
Proof.
  split; [reflexivity|].
  apply (names_format (str "acme") (str "svc") (str "prod") (str "11111111") (str "cc0cc0cc")).
  reflexivity.
Defined.

Lemma resolveNewCommitHash_explicit_witness :
  str "not-a-hash" ≠ []
  ∧ resolveNewCommitHash cooperative {| github.AccessToken := str "gho_token" |}
      (str "not-a-hash") (str "master") (str "acme") (str "repo") world1
    = (Value (str "not-a-hash"), world1).
Proof.
  split; [discriminate|].
  apply (resolveNewCommitHash_explicit cooperative {| github.AccessToken := str "gho_token" |}
           (str "not-a-hash") (str "master") (str "acme") (str "repo") world1).
  discriminate.
Defined.

(** * Further properties of the functions of [main.go] *)


(** * Further properties of [main.go] *)

(** ** Runs in equations *)

Lemma bind_Value {A B} (m : IO A) (k : A → IO B) (w w' : World) (b : B) :
  (m ≫= k) w = (Value b, w') →
  ∃ a w1, m w = (Value a, w1) ∧ k a w1 = (Value b, w').
Proof.
  unfold mbind, IO_bind. destruct (m w) as [[a| | |] w1]; intros H; try discriminate H.
  by exists a, w1.
Qed.

Lemma log_Fatalf_no_Value {A} (f : bytes) (operands : list bytes) (w w' : World) (a : A) :
  log_Fatalf f operands w ≠ (Value a, w').
Proof.
  unfold log_Fatalf, mbind, IO_bind, modelled, log_Fatal, abort.
  by destruct (fmt.Sprintf f operands).
Qed.

(** The world after a sub-process, and what the sub-process answered. *)
Definition ran (outside : Outside) (w : World) (name : bytes) (args : list bytes) : World :=
  {| files := (cmd_Run outside w name args).2;
     readonly := readonly w;
     history := history w ++ [CallRun name args] |}.

Definition failure (outside : Outside) (w : World) (name : bytes) (args : list bytes)
  : option error := (cmd_Run outside w name args).1.2.

Lemma runCommand_run (outside : Outside) (name : bytes) (args : list bytes) (w : World) :
  runCommand outside name args w
  = (Value match failure outside w name args with
           | Some e => ([], Some (str "run: " ++ e))
           | None => ((cmd_Run outside w name args).1.1, None)
           end,
     ran outside w name args).
Proof.
  unfold runCommand, exec_Run, failure, ran, mbind, IO_bind.
  destruct (cmd_Run outside w name args) as [[out err] files']. simpl.
  destruct err as [e|]; [|done].
  unfold Errorf, fmt.Errorf. simpl. by rewrite app_nil_r.
Qed.

(** ** The new identifier: the error path and the bounds *)

(** X1. When the reference lookup fails, [extractNewCommitHash] returns the
    empty string and the error of the lookup behind [error getting ref: ];
    the lookup, for [refs/heads/<master>], is the one call it makes. *)
Theorem extractNewCommitHash_wraps_error (outside : Outside) (gh : github.Client)
    (master owner repository : bytes) (w : World)
    (ref : option github.Reference) (e : error) :
  Git_GetRef outside w gh owner repository (str "refs/heads/" ++ master) = (ref, Some e) →
  extractNewCommitHash outside gh master owner repository w
  = (Value ([], Some (str "error getting ref: " ++ e)),
     afterCall w (CallGetRef gh owner repository (str "refs/heads/" ++ master))).
Proof. apply extractNewCommitHash_lookup_error. Qed.

(** An outside whose lookup fails. *)
Definition lookupFails : Outside :=
  {| cmd_Run := λ w _ _, (([], None), files w);
     Git_GetRef := λ _ _ _ _ _, (None, Some (str "404 Not Found"));
     PullRequests_Create := λ _ _ _ _ _, (None, None) |}.

Lemma extractNewCommitHash_wraps_error_witness :
  Git_GetRef lookupFails world1 {| github.AccessToken := [] |} (str "acme") (str "repo")
    (str "refs/heads/" ++ str "master") = (None, Some (str "404 Not Found"))
  ∧ extractNewCommitHash lookupFails {| github.AccessToken := [] |}
      (str "master") (str "acme") (str "repo") world1
    = (Value ([], Some (str "error getting ref: " ++ str "404 Not Found")),
       afterCall world1 (CallGetRef {| github.AccessToken := [] |} (str "acme") (str "repo")
                           (str "refs/heads/" ++ str "master"))).
Proof.
  split; [reflexivity|].
  apply (extractNewCommitHash_wraps_error lookupFails {| github.AccessToken := [] |}
           (str "master") (str "acme") (str "repo") world1 None (str "404 Not Found")).
  reflexivity.
Defined.

(** X2. When the lookup succeeds, the outcome depends on the length of the
    SHA that the nil-safe getters give (the empty string for a missing
    reference, object or SHA) and on nothing else: with eight bytes or more
    the result is the first eight, whatever they are, and with fewer the
    slice expression panics. *)
Theorem extractNewCommitHash_by_length (outside : Outside) (gh : github.Client)
    (master owner repository : bytes) (w : World) (ref : option github.Reference) :
  Git_GetRef outside w gh owner repository (str "refs/heads/" ++ master) = (ref, None) →
  let sha := github.GetSHA (github.GetObject ref) in
  extractNewCommitHash outside gh master owner repository w
  = (if 8 <=? length sha then Value (take 8 sha, None)
     else Panicked (SliceBoundsOutOfRange 8 (length sha)),
     afterCall w (CallGetRef gh owner repository (str "refs/heads/" ++ master))).
Proof.
  intros Hget sha. unfold extractNewCommitHash, GetRef, mbind, IO_bind.
  rewrite Hget. cbv beta iota. fold sha. unfold slice_to.
  by destruct (8 <=? length sha).
Qed.

(** An outside whose lookup answers with an abbreviated SHA. *)
Definition shortSHA : Outside :=
  {| cmd_Run := λ w _ _, (([], None), files w);
     Git_GetRef := λ _ _ _ _ ref,
       (Some {| github.Ref := Some ref;
                github.Object := Some {| github.SHA := Some (str "0123456") |} |}, None);
     PullRequests_Create := λ _ _ _ _ _, (None, None) |}.

Lemma extractNewCommitHash_by_length_witness :
  Git_GetRef shortSHA world1 {| github.AccessToken := [] |} (str "acme") (str "repo")
    (str "refs/heads/" ++ str "master")
  = (Some {| github.Ref := Some (str "refs/heads/master");
             github.Object := Some {| github.SHA := Some (str "0123456") |} |}, None)
  ∧ extractNewCommitHash shortSHA {| github.AccessToken := [] |}
      (str "master") (str "acme") (str "repo") world1
    = (Panicked (SliceBoundsOutOfRange 8 7),
       afterCall world1 (CallGetRef {| github.AccessToken := [] |} (str "acme") (str "repo")
                           (str "refs/heads/" ++ str "master"))).
Proof.
  split; [reflexivity|].
  apply (extractNewCommitHash_by_length shortSHA {| github.AccessToken := [] |}
           (str "master") (str "acme") (str "repo") world1
           (Some {| github.Ref := Some (str "refs/heads/master");
                    github.Object := Some {| github.SHA := Some (str "0123456") |} |})).
  reflexivity.
Defined.


(** ** Old-identifier extraction: outcomes *)

(** X3. A manifest that cannot be opened is reported before the pattern
    is compiled: whatever the branch name and the tag, the result is the
    error of [os.Open] behind [open file: ], and the world is unchanged. *)
Theorem extractOldCommitHash_missing_file (w : World) (filePath master yamlTag : bytes) :
  files w !! filePath = None →
  extractOldCommitHash filePath master yamlTag w
  = (Value ([], Some (str "open file: open " ++ filePath
                      ++ str ": no such file or directory")), w).
Proof.
  intros Hin. by rewrite extractOldCommitHash_open_error.
Qed.

Lemma extractOldCommitHash_missing_file_witness :
  files world1 !! str "chart.yaml" = None
  ∧ extractOldCommitHash (str "chart.yaml") (str "release-(1") (str "image") world1
    = (Value ([], Some (str "open file: open " ++ str "chart.yaml"
                        ++ str ": no such file or directory")), world1).
Proof.
  split; [reflexivity|].
  apply (extractOldCommitHash_missing_file world1 (str "chart.yaml") (str "release-(1")
           (str "image")).
  reflexivity.
Defined.

(** X4. For a plain branch name [extractOldCommitHash] always returns, in
    the world it started in, one of three results: the open error, the
    error [commit hash not found], or an identifier of exactly eight word
    characters, with no error. *)
Theorem extractOldCommitHash_outcomes (w : World) (filePath master yamlTag : bytes) :
  plain master →
  ∃ hash err,
    extractOldCommitHash filePath master yamlTag w = (Value (hash, err), w)
    ∧ ((hash = [] ∧ files w !! filePath = None
        ∧ err = Some (str "open file: open " ++ filePath
                      ++ str ": no such file or directory"))
       ∨ (hash = [] ∧ is_Some (files w !! filePath)
          ∧ err = Some (str "commit hash not found"))
       ∨ (length hash = 8 ∧ wordChars hash ∧ is_Some (files w !! filePath)
          ∧ err = None)).
Proof.
  intros Hm. destruct (files w !! filePath) as [input|] eqn:Hin.
  - rewrite (extractOldCommitHash_run _ _ _ _ input) by done.
    destruct (scanForHash (hashRegexp master) yamlTag (bufio.Lines input)) as [h|] eqn:Hscan.
    + exists h, None. split; [done|]. right. right.
      apply scanForHash_Some in Hscan as (before & line & after & _ & _ & _ & Hleft).
      destruct Hleft as (i & (pre & post & _ & _ & Hlen & Hw) & _). by eauto.
    + exists [], (Some (str "commit hash not found")). split; [done|]. right. left. by eauto.
  - eexists [], _. split; [by rewrite extractOldCommitHash_open_error|]. by left.
Qed.

Lemma extractOldCommitHash_outcomes_witness :
  plain (str "master")
  ∧ ∃ hash err,
      extractOldCommitHash (str "values.yaml") (str "master") (str "image") world3
      = (Value (hash, err), world3)
      ∧ ((hash = [] ∧ files world3 !! str "values.yaml" = None
          ∧ err = Some (str "open file: open " ++ str "values.yaml"
                        ++ str ": no such file or directory"))
         ∨ (hash = [] ∧ is_Some (files world3 !! str "values.yaml")
            ∧ err = Some (str "commit hash not found"))
         ∨ (length hash = 8 ∧ wordChars hash ∧ is_Some (files world3 !! str "values.yaml")
            ∧ err = None)).
Proof.
  split; [reflexivity|].
  apply (extractOldCommitHash_outcomes world3 (str "values.yaml") (str "master") (str "image")).
  reflexivity.
Defined.

(** ** Lines under concatenation *)

(** A text made of whole lines: empty, or ended by a newline. *)
Definition whole_lines (text : bytes) : Prop := text = [] ∨ ∃ text0, text = text0 ++ [NL].

Lemma rawLines_nonempty (c : ascii) (s : bytes) : bufio.rawLines (c :: s) ≠ [].
Proof.
  cbn [bufio.rawLines]. destruct (Ascii.eqb c NL); [done|].
  by destruct (bufio.rawLines s).
Qed.

Lemma rawLines_app_NL (text0 rest : bytes) :
  bufio.rawLines (text0 ++ NL :: rest) = bufio.rawLines (text0 ++ [NL]) ++ bufio.rawLines rest.
Proof.
  induction text0 as [|c text0 IH]; [done|].
  cbn [app bufio.rawLines]. rewrite IH.
  destruct (Ascii.eqb c NL); [done|].
  destruct (bufio.rawLines (text0 ++ [NL])) as [|raw raws] eqn:E; [|done].
  destruct text0 as [|d text0]; [discriminate E|].
  change ((d :: text0) ++ [NL]) with (d :: (text0 ++ [NL])) in E.
  by apply rawLines_nonempty in E.
Qed.

Lemma rawLines_app (text rest : bytes) :
  whole_lines text → bufio.rawLines (text ++ rest) = bufio.rawLines text ++ bufio.rawLines rest.
Proof.
  intros [->|[text0 ->]]; [done|]. rewrite <- app_assoc. apply rawLines_app_NL.
Qed.

Lemma rawLines_last (line : bytes) : NL ∉ line → line ≠ [] → bufio.rawLines line = [line].
Proof.
  induction line as [|c line IH]; [done|]. intros [Hc Hl]%not_elem_of_cons _.
  cbn [bufio.rawLines]. destruct (Ascii.eqb c NL) eqn:E; [by apply eqb_ascii_true in E|].
  destruct line as [|d line]; [done|]. by rewrite IH.
Qed.

Lemma tokens_app (raws1 raws2 : list bytes) :
  bufio.tokens (raws1 ++ raws2)
  = bufio.tokens raws1 ++ (if forallb bufio.fits raws1 then bufio.tokens raws2 else []).
Proof.
  induction raws1 as [|raw raws1 IH]; [done|]. simpl.
  destruct (bufio.fits raw); [|done]. simpl. by rewrite IH.
Qed.

Lemma scanForHash_app (re : regexp.Regexp) (yamlTag : bytes) (lines1 lines2 : list bytes) :
  scanForHash re yamlTag (lines1 ++ lines2)
  = match scanForHash re yamlTag lines1 with
    | Some hash => Some hash
    | None => scanForHash re yamlTag lines2
    end.
Proof.
  induction lines1 as [|line lines1 IH]; [done|]. simpl.
  destruct (strings.Contains line yamlTag); [|done].
  destruct (regexp.FindStringSubmatch re line) as [m|]; [|done].
  by destruct (1 <? length m).
Qed.

(** ** Lines of other keys *)

(** X5. A line without the tag name that fits the scanner's buffer can be
    put between two lines of the manifest, or before the first or after
    the last, without any effect on the old identifier that is
    extracted. *)
Theorem extractOldCommitHash_ignores_other_lines (w w' : World)
    (filePath master yamlTag above line below : bytes) :
  files w !! filePath = Some (above ++ below) →
  files w' !! filePath = Some (above ++ line ++ [NL] ++ below) →
  whole_lines above →
  NL ∉ line →
  length line < bufio.MaxScanTokenSize →
  strings.Contains (bufio.dropCR line) yamlTag = false →
  (extractOldCommitHash filePath master yamlTag w').1
  = (extractOldCommitHash filePath master yamlTag w).1.
Proof.
  intros Hin Hin' Habove Hnl Hfit Htag.
  unfold extractOldCommitHash, os.Open, mbind, IO_bind. rewrite Hin, Hin'.
  unfold regexp_MustCompile.
  destruct (regexp.rejected (master ++ str "_(\w{8})")); [done|].
  destruct (regexp.MustCompile (master ++ str "_(\w{8})")) as [re|]; [|done].
  cbn [modelled mret IO_ret].
  assert (scanForHash re yamlTag (bufio.Lines (above ++ line ++ [NL] ++ below))
          = scanForHash re yamlTag (bufio.Lines (above ++ below))) as ->.
  2: { by destruct (scanForHash re yamlTag (bufio.Lines (above ++ below))). }
  unfold bufio.Lines.
  rewrite (rawLines_app above (line ++ [NL] ++ below)), (rawLines_app above below) by done.
  cbn [app]. rewrite rawLines_first by done.
  rewrite !tokens_app, !scanForHash_app.
  destruct (scanForHash re yamlTag (bufio.tokens (bufio.rawLines above))); [done|].
  destruct (forallb bufio.fits (bufio.rawLines above)); [|done].
  cbn [bufio.tokens]. unfold bufio.fits at 1.
  apply Nat.ltb_lt in Hfit. rewrite Hfit. cbn [scanForHash]. by rewrite Htag.
Qed.

Definition manifest3_commented : bytes :=
  str "# image pin, updated by the release job" ++ [NL]
  ++ str "# chart pins follow" ++ [NL]
  ++ pin (str "chart") (str "master") (str "99999999") ++ [NL]
  ++ pin (str "image") (str "master") (str "11111111") ++ [CR; NL].

Definition world3_commented : World :=
  {| files := {[ str "values.yaml" := manifest3_commented ]}; readonly := ∅; history := [] |}.

Lemma comment_fits : length (str "# chart pins follow") < bufio.MaxScanTokenSize.
Proof. apply Nat.ltb_lt. reflexivity. Qed.

(** A byte is absent from a text, by computation. *)
Lemma absent_computed (c : ascii) (s : bytes) :
  forallb (λ d, negb (Ascii.eqb d c)) s = true → c ∉ s.
Proof.
  induction s as [|d s IH]; simpl; [by intros _ ?%elem_of_nil|].
  intros [Hd Hs]%andb_true_iff [->|Hin]%elem_of_cons.
  - by rewrite Ascii.eqb_refl in Hd.
  - by apply IH.
Qed.

Lemma comment_no_NL : NL ∉ str "# chart pins follow".
Proof. by apply absent_computed. Qed.

Lemma extractOldCommitHash_ignores_other_lines_witness :
  files world3 !! str "values.yaml"
  = Some ((str "# image pin, updated by the release job" ++ [NL])
          ++ pin (str "chart") (str "master") (str "99999999") ++ [NL]
          ++ pin (str "image") (str "master") (str "11111111") ++ [CR; NL])
  ∧ files world3_commented !! str "values.yaml"
    = Some ((str "# image pin, updated by the release job" ++ [NL])
            ++ str "# chart pins follow" ++ [NL]
            ++ pin (str "chart") (str "master") (str "99999999") ++ [NL]
            ++ pin (str "image") (str "master") (str "11111111") ++ [CR; NL])
  ∧ whole_lines (str "# image pin, updated by the release job" ++ [NL])
  ∧ (NL ∉ str "# chart pins follow")
  ∧ length (str "# chart pins follow") < bufio.MaxScanTokenSize
  ∧ strings.Contains (bufio.dropCR (str "# chart pins follow")) (str "image") = false
  ∧ (extractOldCommitHash (str "values.yaml") (str "master") (str "image") world3_commented).1
    = (extractOldCommitHash (str "values.yaml") (str "master") (str "image") world3).1.
Proof.
  split; [reflexivity|]. split; [reflexivity|].
  split; [right; by eexists|]. split; [exact comment_no_NL|].
  split; [exact comment_fits|]. split; [reflexivity|].
  apply (extractOldCommitHash_ignores_other_lines world3 world3_commented
           (str "values.yaml") (str "master") (str "image")
           (str "# image pin, updated by the release job" ++ [NL])
           (str "# chart pins follow")
           (pin (str "chart") (str "master") (str "99999999") ++ [NL]
            ++ pin (str "image") (str "master") (str "11111111") ++ [CR; NL])).
  - reflexivity.
  - reflexivity.
  - right. by eexists.
  - exact comment_no_NL.
  - exact comment_fits.
  - reflexivity.
Defined.


(** ** The manifest patch: what it leaves alone *)

(** X6. [updateYamlFile] always returns.  It makes no call and leaves the
    permissions and every file but the manifest as they were.  A manifest
    that does not exist is reported as the error of the read behind
    [read file: ], with nothing changed; and when no error is returned the
    manifest holds the patched text. *)
Theorem updateYamlFile_frame (w : World)
    (filePath master yamlTag oldCommitHash newCommitHash : bytes) :
  ∃ err w',
    updateYamlFile filePath master yamlTag oldCommitHash newCommitHash w = (Value err, w')
    ∧ history w' = history w
    ∧ readonly w' = readonly w
    ∧ (∀ other, other ≠ filePath → files w' !! other = files w !! other)
    ∧ (files w !! filePath = None →
       w' = w
       ∧ err = Some (str "read file: open " ++ filePath
                     ++ str ": no such file or directory"))
    ∧ (err = None →
       ∃ input,
         files w !! filePath = Some input
         ∧ files w' !! filePath
           = Some (patched input yamlTag master oldCommitHash newCommitHash)).
Proof.
  destruct (files w !! filePath) as [input|] eqn:Hin.
  - destruct (decide (filePath ∈ readonly w)) as [Hro|Hrw].
    + eexists _, w. split; [by eapply updateYamlFile_write_error|].
      by repeat split.
    + eexists None, _. split; [by eapply updateYamlFile_run|]. cbn [history readonly files].
      repeat split; try done.
      * intros other Hother. by rewrite lookup_insert_ne.
      * intros _. exists input. split; [done|]. apply lookup_insert_eq.
  - eexists _, w. split; [by apply updateYamlFile_read_error|].
    by repeat split.
Qed.

Lemma updateYamlFile_frame_witness :
  files world1 !! str "chart.yaml" = None
  ∧ ∃ err w',
      updateYamlFile (str "chart.yaml") (str "master") (str "image")
        (str "11111111") (str "22222222") world1 = (Value err, w')
      ∧ w' = world1
      ∧ err = Some (str "read file: open " ++ str "chart.yaml"
                    ++ str ": no such file or directory").
Proof.
  split; [reflexivity|].
  destruct (updateYamlFile_frame world1 (str "chart.yaml") (str "master") (str "image")
              (str "11111111") (str "22222222"))
    as (err & w' & Hrun & _ & _ & _ & Hmissing & _).
  exists err, w'. split; [exact Hrun|]. apply Hmissing. reflexivity.
Defined.

(** ** The manifest patch: one line *)

Lemma rawLines_after (post : bytes) :
  ∃ q raws, ∀ X, NL ∉ X → X ≠ [] → bufio.rawLines (X ++ post) = (X ++ q) :: raws.
Proof.
  induction post as [|c post (q & raws & IH)].
  - exists [], []. intros X HX Hne. rewrite !app_nil_r. by apply rawLines_last.
  - destruct (decide (c = NL)) as [->|Hc].
    + exists [], (bufio.rawLines post). intros X HX _. rewrite app_nil_r.
      by apply rawLines_first.
    + exists (c :: q), raws. intros X HX Hne.
      rewrite (cons_middle c X post), (cons_middle c X q), !app_assoc. apply IH.
      * rewrite not_elem_of_app, not_elem_of_cons. split; [done|]. split; [done|].
        apply not_elem_of_nil.
      * by destruct X.
Qed.

(** A text without newline sits on one line, and the other lines do not
    depend on it. *)
Lemma rawLines_around (pre post : bytes) :
  ∃ before p q after, ∀ X, NL ∉ X → X ≠ [] →
    bufio.rawLines (pre ++ X ++ post) = before ++ (p ++ X ++ q) :: after.
Proof.
  induction pre as [|c pre (before & p & q & after & IH)].
  - destruct (rawLines_after post) as (q & raws & Hq).
    exists [], [], q, raws. intros X HX Hne. by apply Hq.
  - destruct (decide (c = NL)) as [->|Hc].
    + exists ([] :: before), p, q, after. intros X HX Hne.
      cbn [app bufio.rawLines]. change (Ascii.eqb NL NL) with true. cbv iota.
      by rewrite IH.
    + assert (Ascii.eqb c NL = false) as Hcb.
      { destruct (Ascii.eqb c NL) eqn:E; [by apply eqb_ascii_true in E|done]. }
      destruct before as [|raw before].
      * exists [], (c :: p), q, after. intros X HX Hne.
        cbn [app bufio.rawLines]. by rewrite Hcb, IH.
      * exists ((c :: raw) :: before), p, q, after. intros X HX Hne.
        cbn [app bufio.rawLines]. by rewrite Hcb, IH.
Qed.

Lemma pin_nonempty (yamlTag master commitHash : bytes) : pin yamlTag master commitHash ≠ [].
Proof. unfold pin. by destruct yamlTag. Qed.

Lemma pin_no_NL (yamlTag master commitHash : bytes) :
  NL ∉ yamlTag → NL ∉ master → NL ∉ commitHash → NL ∉ pin yamlTag master commitHash.
Proof.
  intros Ht Hm Hh. unfold pin. rewrite !not_elem_of_app. repeat split; try done.
  - by apply absent_computed.
  - by apply absent_computed.
  - by apply absent_computed.
  - by apply absent_computed.
Qed.

(** X7. A successful patch changes one line at most and moves none: the
    lines of the manifest before and after are the same but for the line
    of the first pin, where the old pin has become the new one and the
    rest of the line is kept. *)
Theorem updateYamlFile_one_line (w : World)
    (filePath master yamlTag oldCommitHash newCommitHash input : bytes) :
  files w !! filePath = Some input →
  filePath ∉ readonly w →
  NL ∉ yamlTag → NL ∉ master → NL ∉ oldCommitHash → NL ∉ newCommitHash →
  ∃ w' output,
    updateYamlFile filePath master yamlTag oldCommitHash newCommitHash w = (Value None, w')
    ∧ files w' !! filePath = Some output
    ∧ (output = input
       ∨ ∃ before p q after,
           bufio.rawLines input
           = before ++ (p ++ pin yamlTag master oldCommitHash ++ q) :: after
           ∧ bufio.rawLines output
             = before ++ (p ++ pin yamlTag master newCommitHash ++ q) :: after).
Proof.
  intros Hin Hrw Ht Hm Ho Hn.
  eexists _, _. split; [by eapply updateYamlFile_run|]. cbn [files].
  split; [apply lookup_insert_eq|]. unfold patched.
  destruct (Replace_1_spec input (pin yamlTag master oldCommitHash)
              (pin yamlTag master newCommitHash)) as [[_ ->] | (pre & post & -> & -> & _)];
    [by left|]. right.
  destruct (rawLines_around pre post) as (before & p & q & after & Hlines).
  exists before, p, q, after.
  split; apply Hlines; first [by apply pin_no_NL | by apply pin_nonempty].
Qed.


(** ** Patch, then extract *)

Lemma dropCR_app (x y : bytes) : y ≠ [] → bufio.dropCR (x ++ y) = x ++ bufio.dropCR y.
Proof.
  intros Hy. induction x as [|c x IH]; [done|].
  cbn [app bufio.dropCR]. rewrite IH.
  destruct (x ++ y) eqn:E; [|done]. by apply app_eq_nil in E as [_ ?].
Qed.

Lemma dropCR_snoc (x : bytes) (c : ascii) : c ≠ CR → bufio.dropCR (x ++ [c]) = x ++ [c].
Proof.
  intros Hc. rewrite dropCR_app by done. cbn.
  destruct (Ascii.eqb c CR) eqn:E; [by apply eqb_ascii_true in E|done].
Qed.

(** The line of a pin, as the scanner yields it: only what follows the pin
    can lose a carriage return. *)
Lemma dropCR_pin_line (indent yamlTag master commitHash rest : bytes) :
  bufio.dropCR (indent ++ pin yamlTag master commitHash ++ rest)
  = indent ++ pin yamlTag master commitHash ++ bufio.dropCR rest.
Proof.
  destruct rest as [|c rest].
  - rewrite !app_nil_r. unfold pin. rewrite !app_assoc. by apply dropCR_snoc.
  - by rewrite !app_assoc, dropCR_app.
Qed.

Lemma forallb_take {A} (f : A → bool) (n : nat) (l : list A) :
  forallb f l = true → forallb f (take n l) = true.
Proof.
  revert n. induction l as [|x l IH]; intros [|n]; simpl; try done.
  intros [-> Hl]%andb_true_iff. by apply IH.
Qed.

(** A match that begins so far to the left that its branch name and
    underscore end before an identifier stays a match when the identifier
    is exchanged for another one of word characters. *)
Lemma matches_at_swap (master P h h' Q : bytes) (j : nat) (cap : bytes) :
  matches_at master (P ++ h ++ Q) j cap →
  j + length master + 1 ≤ length P →
  length h = 8 → length h' = 8 → wordChars h' →
  ∃ cap', matches_at master (P ++ h' ++ Q) j cap'.
Proof.
  intros (x & y & Heq & Hx & Hlen & Hw) Hj Hh Hh' Hw'.
  set (M := x ++ master ++ str "_").
  assert (length M = j + length master + 1) as HM.
  { unfold M. rewrite !length_app. simpl. lia. }
  assert (P = M ++ drop (length M) P) as HP.
  { rewrite <- (take_drop (length M) P) at 1. f_equal.
    assert (take (length M) (P ++ h ++ Q) = M) as Ht.
    { rewrite Heq.
      replace (x ++ master ++ str "_" ++ cap ++ y) with (M ++ cap ++ y)
        by (unfold M; by rewrite <- !app_assoc).
      apply take_app_length. }
    rewrite take_app_le in Ht by lia. done. }
  set (P2 := drop (length M) P) in *.
  assert (P2 ++ h ++ Q = cap ++ y) as Hrest.
  { apply (app_inv_head M). rewrite app_assoc, <- HP, Heq. unfold M.
    by rewrite <- !app_assoc. }
  exists (take 8 (P2 ++ h' ++ Q)), x, (drop 8 (P2 ++ h' ++ Q)).
  split; [|split; [done|split]].
  - rewrite HP at 1. unfold M. rewrite <- !app_assoc. do 3 f_equal.
    by rewrite take_drop.
  - rewrite length_take, !length_app. lia.
  - unfold wordChars in *.
    assert (cap = take 8 (P2 ++ h ++ Q)) as Hcap.
    { rewrite Hrest. by rewrite take_app_exact. }
    destruct (decide (8 ≤ length P2)) as [Hlong|Hshort].
    + rewrite take_app_le by done. rewrite Hcap, take_app_le in Hw by done. done.
    + rewrite take_app_ge by lia. rewrite Hcap, take_app_ge in Hw by lia.
      rewrite forallb_app in *. apply andb_true_iff in Hw as [HP2 _].
      rewrite HP2. simpl. rewrite take_app_le by lia. by apply forallb_take.
Qed.

(** The part of a pin before the identifier. *)
Definition pinHead (yamlTag master : bytes) : bytes :=
  yamlTag ++ str ": " ++ [DQ] ++ master ++ str "_".

Lemma pin_pinHead (yamlTag master commitHash : bytes) :
  pin yamlTag master commitHash = pinHead yamlTag master ++ commitHash ++ [DQ].
Proof. unfold pin, pinHead. by rewrite <- !app_assoc. Qed.

Lemma length_pin (yamlTag master commitHash : bytes) :
  length (pin yamlTag master commitHash)
  = length yamlTag + length master + length commitHash + 5.
Proof. unfold pin. rewrite !length_app. simpl. lia. Qed.

(** A pin with an identifier of eight word characters is a match of the
    pattern, three bytes after the tag name. *)
Lemma pin_matches (yamlTag master commitHash x y : bytes) :
  length commitHash = 8 → wordChars commitHash →
  matches_at master (x ++ pin yamlTag master commitHash ++ y)
    (length x + length yamlTag + 3) commitHash.
Proof.
  intros Hlen Hw. exists (x ++ yamlTag ++ str ": " ++ [DQ]), ([DQ] ++ y).
  split; [unfold pin; by rewrite <- !app_assoc|]. split; [|done].
  rewrite !length_app. simpl. lia.
Qed.

Lemma pin_has_tag (yamlTag master commitHash x y : bytes) :
  strings.Contains (x ++ pin yamlTag master commitHash ++ y) yamlTag = true.
Proof.
  apply Contains_true. exists x. eexists. unfold pin. by rewrite <- !app_assoc.
Qed.


Lemma wordChars_no_NL (hash : bytes) : wordChars hash → NL ∉ hash.
Proof.
  unfold wordChars. induction hash as [|c hash IH]; [intros _; apply not_elem_of_nil|].
  simpl. intros [Hc Hh]%andb_true_iff. apply not_elem_of_cons. split; [|by apply IH].
  intros <-. discriminate Hc.
Qed.

(** The lines that follow a line: what comes after its newline. *)
Definition linesBelow (below : bytes) : list bytes :=
  match below with
  | [] => []
  | _ :: below' => bufio.rawLines below'
  end.

(** What follows a line is empty or begins with the newline that ends
    the line. *)
Definition ends_line (below : bytes) : Prop := below = [] ∨ ∃ below', below = NL :: below'.

Lemma rawLines_line (above line below : bytes) :
  whole_lines above → NL ∉ line → line ≠ [] → ends_line below →
  bufio.rawLines (above ++ line ++ below) = bufio.rawLines above ++ line :: linesBelow below.
Proof.
  intros Habove Hnl Hne Hbelow. rewrite rawLines_app by done. f_equal.
  destruct Hbelow as [-> | [below' ->]].
  - rewrite app_nil_r. by apply rawLines_last.
  - by apply rawLines_first.
Qed.

Section PinLine.

Context (master yamlTag above indent rest below : bytes).

(** The line of the pin, with the identifier [hash]. *)
Definition pinLine (hash : bytes) : bytes := indent ++ pin yamlTag master hash ++ rest.

(** The manifest: whole lines above, the line of the pin, and what is
    below. *)
Definition pinManifest (hash : bytes) : bytes := above ++ pinLine hash ++ below.

(** The offset of the identifier's match in the line of the pin. *)
Definition pinOffset : nat := length indent + length yamlTag + 3.

Hypothesis given_master_plain : plain master.
Hypothesis given_master_no_NL : NL ∉ master.
Hypothesis given_tag_no_NL : NL ∉ yamlTag.
Hypothesis given_above_whole : whole_lines above.
Hypothesis given_indent_no_NL : NL ∉ indent.
Hypothesis given_rest_no_NL : NL ∉ rest.
Hypothesis given_below_ends : ends_line below.
Hypothesis given_above_not_decisive :
  Forall (λ raw, ¬ (strings.Contains (bufio.dropCR raw) yamlTag = true
                    ∧ has_match master (bufio.dropCR raw))) (bufio.rawLines above).

Lemma pinLine_no_NL (hash : bytes) : wordChars hash → NL ∉ pinLine hash.
Proof.
  intros Hw. unfold pinLine. rewrite !not_elem_of_app. split; [done|]. split; [|done].
  apply pin_no_NL; [done..|]. by apply wordChars_no_NL.
Qed.

Lemma pinLine_nonempty (hash : bytes) : pinLine hash ≠ [].
Proof.
  unfold pinLine. intros [_ [E _]%app_eq_nil]%app_eq_nil. by apply pin_nonempty in E.
Qed.

Lemma length_pinLine (hash hash' : bytes) :
  length hash = length hash' → length (pinLine hash) = length (pinLine hash').
Proof. intros H. unfold pinLine. rewrite !length_app, !length_pin. lia. Qed.

Lemma rawLines_pinManifest (hash : bytes) :
  wordChars hash →
  bufio.rawLines (pinManifest hash)
  = bufio.rawLines above ++ pinLine hash :: linesBelow below.
Proof.
  intros Hw. apply rawLines_line; [done| |apply pinLine_nonempty|done].
  by apply pinLine_no_NL.
Qed.

Lemma dropCR_pinLine (hash : bytes) :
  bufio.dropCR (pinLine hash) = indent ++ pin yamlTag master hash ++ bufio.dropCR rest.
Proof. apply dropCR_pin_line. Qed.

(** When the pattern matches nowhere on the line of the pin before the
    identifier, extraction returns the identifier. *)
Lemma extractOldCommitHash_pinManifest (w : World) (filePath hash : bytes) :
  files w !! filePath = Some (pinManifest hash) →
  length hash = 8 → wordChars hash →
  Forall (λ raw, length raw < bufio.MaxScanTokenSize)
         (bufio.rawLines above ++ [pinLine hash]) →
  (∀ j cap, matches_at master (bufio.dropCR (pinLine hash)) j cap → pinOffset ≤ j) →
  extractOldCommitHash filePath master yamlTag w = (Value (hash, None), w).
Proof.
  intros Hin Hlen Hw Hfits Hmin.
  eapply extractOldCommitHash_first; [done | done | | | |].
  - apply Lines_fits; [by apply rawLines_pinManifest | done].
  - apply Forall_fmap. exact given_above_not_decisive.
  - rewrite dropCR_pinLine. apply pin_has_tag.
  - exists pinOffset. split; [|exact Hmin].
    rewrite dropCR_pinLine. by apply pin_matches.
Qed.

(** The matches to the left of the identifier do not depend on the
    identifier. *)
Lemma pinLine_swap (hash hash' : bytes) :
  length hash = 8 → length hash' = 8 → wordChars hash →
  (∀ j cap, matches_at master (bufio.dropCR (pinLine hash)) j cap → pinOffset ≤ j) →
  (∀ j cap, matches_at master (bufio.dropCR (pinLine hash')) j cap → pinOffset ≤ j).
Proof.
  intros Hlen Hlen' Hw Hmin j cap Hj.
  destruct (decide (pinOffset ≤ j)) as [|Hlt]; [done|]. exfalso.
  rewrite dropCR_pinLine, pin_pinHead in Hj.
  replace (indent ++ (pinHead yamlTag master ++ hash' ++ [DQ]) ++ bufio.dropCR rest)
    with ((indent ++ pinHead yamlTag master) ++ hash' ++ ([DQ] ++ bufio.dropCR rest)) in Hj
    by (by rewrite <- !app_assoc).
  apply (matches_at_swap _ _ _ hash) in Hj as [cap' Hj]; [|..|done]; [| |done|done].
  - apply Hlt, (Hmin j cap'). rewrite dropCR_pinLine, pin_pinHead.
    by rewrite <- !app_assoc in *.
  - unfold pinOffset, pinHead in *. rewrite !length_app. simpl. lia.
Qed.

(** No pin with the identifier begins before the one on the line of the
    pin. *)
Lemma pinManifest_first_pin (hash : bytes) (j : nat) :
  length hash = 8 → wordChars hash →
  (∀ j cap, matches_at master (bufio.dropCR (pinLine hash)) j cap → pinOffset ≤ j) →
  occurs_at (pin yamlTag master hash) (pinManifest hash) j →
  length above + length indent ≤ j.
Proof.
  intros Hlen Hw Hmin Hj.
  destruct (decide (length above + length indent ≤ j)) as [|Hlt]; [done|]. exfalso.
  assert (NL ∉ pin yamlTag master hash) as Hpin
    by (apply pin_no_NL; [done..|by apply wordChars_no_NL]).
  unfold pinManifest in Hj.
  destruct (decide (j + length (pin yamlTag master hash) ≤ length above)) as [Hin|Hout].
  - (* the pin would sit on a line above *)
    apply occurs_at_app_l in Hj as (pre & post & Habove & _); [|done].
    destruct (rawLines_around pre post) as (before & p & q & after & Hlines).
    specialize (Hlines _ Hpin (pin_nonempty _ _ _)). rewrite <- Habove in Hlines.
    pose proof given_above_not_decisive as Hnone. rewrite Hlines in Hnone.
    apply Forall_app in Hnone as [_ Hnone]. apply Forall_cons in Hnone as [Hnone _].
    apply Hnone. rewrite dropCR_pin_line. split; [apply pin_has_tag|].
    eexists _, hash. by apply pin_matches.
  - destruct (decide (j < length above)) as [Hstraddle|Hline].
    + (* the pin would run over the newline that ends the lines above *)
      destruct given_above_whole as [Habove | [above0 Habove]];
        [rewrite Habove in Hstraddle; simpl in Hstraddle; lia|].
      assert (length above = S (length above0)) as Hla
        by (rewrite Habove, length_app; simpl; lia).
      pose proof (occurs_at_lookup _ _ _ (length above0 - j) Hj ltac:(lia)) as Hl.
      replace (j + (length above0 - j)) with (length above0) in Hl by lia.
      rewrite Habove, <- !app_assoc, lookup_app_r, Nat.sub_diag in Hl by done.
      simpl in Hl. symmetry in Hl. by apply list_elem_of_lookup_2 in Hl.
    + (* the pin would begin in the indentation *)
      apply occurs_at_app_r in Hj; [|lia].
      apply occurs_at_app_l in Hj as (x & y & HL & Hx).
      2: { unfold pinLine. rewrite !length_app. lia. }
      pose proof (pin_matches yamlTag master hash x (bufio.dropCR y) Hlen Hw) as Hm.
      rewrite <- dropCR_pin_line, <- HL in Hm. apply Hmin in Hm.
      unfold pinOffset in Hm. lia.
Qed.

(** The patch rewrites the pin on the line of the pin. *)
Lemma patched_pinManifest (hash hash' : bytes) :
  length hash = 8 → wordChars hash →
  (∀ j cap, matches_at master (bufio.dropCR (pinLine hash)) j cap → pinOffset ≤ j) →
  patched (pinManifest hash) yamlTag master hash hash' = pinManifest hash'.
Proof.
  intros Hlen Hw Hmin. unfold patched.
  assert (pinManifest hash
          = (above ++ indent) ++ pin yamlTag master hash ++ (rest ++ below)) as Hshape
    by (unfold pinManifest, pinLine; by rewrite <- !app_assoc).
  destruct (Replace_1_spec (pinManifest hash) (pin yamlTag master hash)
              (pin yamlTag master hash')) as [[Hno _] | (pre & post & Hin & -> & Hfirst)].
  { by destruct (Hno _ _ Hshape). }
  assert (length pre = length (above ++ indent)) as Hpre.
  { apply Nat.le_antisymm; [by eapply Hfirst|]. rewrite length_app.
    apply (pinManifest_first_pin hash); [done..|]. by exists pre, post. }
  rewrite Hshape in Hin. apply app_inj_1 in Hin as [<- Hin]; [|done].
  apply app_inv_head in Hin as <-.
  unfold pinManifest, pinLine. by rewrite <- !app_assoc.
Qed.

End PinLine.


(** X8. Extract, patch, extract.  Let the branch name be plain text in a
    pattern (ASCII bytes, none an operator of the regexp syntax), and let
    the branch name and the tag name have no newline.  Take a manifest of
    whole lines in which one line carries the pin
    [<tag>: "<branch>_<old>"], [old] of eight word characters, with
    anything before and after it on the line; let the manifest be
    writable, let no line above have both the tag
    name and a match of the pattern, let the pattern match nowhere on the
    line before the identifier, and let the lines fit the scanner's
    buffer.  Then extraction returns [old]; the patch to a [new] of eight
    word characters succeeds and rewrites that pin and nothing else; and
    extraction from the patched manifest returns [new]. *)
Theorem patch_then_extract (w : World)
    (filePath master yamlTag oldCommitHash newCommitHash above indent rest below : bytes) :
  files w !! filePath
  = Some (pinManifest master yamlTag above indent rest below oldCommitHash) →
  filePath ∉ readonly w →
  plain master → NL ∉ master → NL ∉ yamlTag →
  length oldCommitHash = 8 → wordChars oldCommitHash →
  length newCommitHash = 8 → wordChars newCommitHash →
  whole_lines above → NL ∉ indent → NL ∉ rest → ends_line below →
  Forall (λ raw, length raw < bufio.MaxScanTokenSize)
         (bufio.rawLines above ++ [pinLine master yamlTag indent rest oldCommitHash]) →
  Forall (λ raw, ¬ (strings.Contains (bufio.dropCR raw) yamlTag = true
                    ∧ has_match master (bufio.dropCR raw))) (bufio.rawLines above) →
  (∀ j cap,
      matches_at master (bufio.dropCR (pinLine master yamlTag indent rest oldCommitHash)) j cap →
      pinOffset yamlTag indent ≤ j) →
  extractOldCommitHash filePath master yamlTag w = (Value (oldCommitHash, None), w)
  ∧ ∃ w',
      updateYamlFile filePath master yamlTag oldCommitHash newCommitHash w = (Value None, w')
      ∧ files w' !! filePath
        = Some (pinManifest master yamlTag above indent rest below newCommitHash)
      ∧ extractOldCommitHash filePath master yamlTag w' = (Value (newCommitHash, None), w').
Proof.
  intros Hin Hrw Hm HmNL HtNL Hlo Hwo Hln Hwn Habove Hindent Hrest Hbelow Hfits Hnone Hmin.
  split; [by apply (extractOldCommitHash_pinManifest master yamlTag above indent rest below)|].
  eexists. split; [by eapply updateYamlFile_run|]. cbn [files].
  rewrite (patched_pinManifest master yamlTag above indent rest below) by done.
  split; [apply lookup_insert_eq|].
  apply (extractOldCommitHash_pinManifest master yamlTag above indent rest below);
    try done.
  - cbn [files]. apply lookup_insert_eq.
  - apply Forall_app. apply Forall_app in Hfits as [Hfa Hfl]. split; [done|].
    apply Forall_singleton. rewrite Forall_singleton in Hfl.
    rewrite (length_pinLine master yamlTag indent rest newCommitHash oldCommitHash);
      [exact Hfl|congruence].
  - by apply (pinLine_swap master yamlTag indent rest oldCommitHash newCommitHash).
Qed.


(** ** The branch of the change *)

(** The two commands of [createOrCheckoutBranch], and its result. *)
Lemma createOrCheckoutBranch_run (outside : Outside) (branch : bytes) (w : World) :
  let verify := [str "rev-parse"; str "--verify"; branch] in
  let w1 := ran outside w (str "git") verify in
  let create := match failure outside w (str "git") verify with
                | None => []
                | Some _ => [str "-b"]
                end in
  let checkout := [str "checkout"] ++ create ++ [branch] in
  createOrCheckoutBranch outside branch w
  = (Value match failure outside w1 (str "git") checkout with
           | None => None
           | Some e =>
               Some (str "run git checkout "
                     ++ match create with [] => [] | _ => str "-b " end
                     ++ branch ++ str ": run: " ++ e)
           end,
     ran outside w1 (str "git") checkout).
Proof.
  intros verify w1 create checkout. unfold createOrCheckoutBranch.
  unfold mbind at 1, IO_bind at 1. rewrite runCommand_run. fold verify w1.
  subst checkout create.
  destruct (failure outside w (str "git") verify) as [e0|]; cbv iota beta.
  - unfold mbind at 1, IO_bind at 1. rewrite runCommand_run.
    destruct (failure outside w1 (str "git") _) as [e|]; [|done].
    unfold mbind, IO_bind, Errorf, fmt.Errorf. simpl. by rewrite app_nil_r.
  - unfold mbind at 1, IO_bind at 1. rewrite runCommand_run.
    destruct (failure outside w1 (str "git") _) as [e|]; [|done].
    unfold mbind, IO_bind, Errorf, fmt.Errorf. simpl. by rewrite app_nil_r.
Qed.

(** X9. [createOrCheckoutBranch] runs two git commands, [rev-parse
    --verify <branch>] and a checkout.  The checkout has [-b] exactly when
    the verification failed, so that a branch that exists is checked out
    and never created again; the error returned is the one of the
    checkout, and a failed verification is not an error. *)
Theorem createOrCheckoutBranch_reuses_branch (outside : Outside) (branch : bytes) (w : World) :
  let verify := [str "rev-parse"; str "--verify"; branch] in
  let w1 := ran outside w (str "git") verify in
  let create := match failure outside w (str "git") verify with
                | None => []
                | Some _ => [str "-b"]
                end in
  let checkout := [str "checkout"] ++ create ++ [branch] in
  createOrCheckoutBranch outside branch w
  = (Value match failure outside w1 (str "git") checkout with
           | None => None
           | Some e =>
               Some (str "run git checkout "
                     ++ match create with [] => [] | _ => str "-b " end
                     ++ branch ++ str ": run: " ++ e)
           end,
     ran outside w1 (str "git") checkout).
Proof. exact (createOrCheckoutBranch_run outside branch w). Qed.

(** ** The commit *)

(** The commands of [gitCommit], and its result. *)
Lemma gitCommit_run (outside : Outside)
    (filePath env repo commitHash message : bytes) (w : World) :
  title repo env commitHash = Some message →
  let w1 := ran outside w (str "git") [str "add"; filePath] in
  let commit := [str "commit"; str "-m"; message] in
  gitCommit outside filePath env repo commitHash w
  = match failure outside w (str "git") [str "add"; filePath] with
    | Some e => (Value (Some (str "run git add: run: " ++ e)), w1)
    | None =>
        (Value match failure outside w1 (str "git") commit with
               | None => None
               | Some e =>
                   Some (str "run git commit -m " ++ [DQ] ++ message ++ [DQ]
                         ++ str ": run: " ++ e)
               end,
         ran outside w1 (str "git") commit)
    end.
Proof.
  intros Htitle w1 commit. unfold gitCommit.
  unfold mbind at 1, IO_bind at 1. rewrite runCommand_run. fold w1.
  destruct (failure outside w (str "git") [str "add"; filePath]) as [e0|]; cbv iota beta.
  - unfold mbind, IO_bind, Errorf, fmt.Errorf. simpl. by rewrite app_nil_r.
  - unfold title in Htitle.
    destruct (strings.ToUpper env) as [ENV|]; [|discriminate Htitle].
    cbn [mbind option_bind] in Htitle.
    unfold mbind at 1, IO_bind at 1. cbn [modelled mret IO_ret].
    unfold mbind at 1, IO_bind at 1. rewrite Htitle. cbn [modelled mret IO_ret].
    unfold mbind at 1, IO_bind at 1. rewrite runCommand_run. fold commit.
    destruct (failure outside w1 (str "git") commit) as [e|]; [|done].
    unfold mbind, IO_bind, Errorf, fmt.Errorf. simpl.
    by rewrite app_nil_r.
Qed.

(** X10. [gitCommit] stages the manifest first and stops there when that
    fails: no commit is attempted.  Otherwise it commits with the title of
    the pull request as the message, and returns the error of the commit,
    the quoted message in front of it. *)
Theorem gitCommit_add_then_commit (outside : Outside)
    (filePath env repo commitHash message : bytes) (w : World) :
  title repo env commitHash = Some message →
  let w1 := ran outside w (str "git") [str "add"; filePath] in
  let commit := [str "commit"; str "-m"; message] in
  gitCommit outside filePath env repo commitHash w
  = match failure outside w (str "git") [str "add"; filePath] with
    | Some e => (Value (Some (str "run git add: run: " ++ e)), w1)
    | None =>
        (Value match failure outside w1 (str "git") commit with
               | None => None
               | Some e =>
                   Some (str "run git commit -m " ++ [DQ] ++ message ++ [DQ]
                         ++ str ": run: " ++ e)
               end,
         ran outside w1 (str "git") commit)
    end.
Proof. exact (gitCommit_run outside filePath env repo commitHash message w). Qed.


(** ** The access token *)

(** A line of the output of [gh] that the loop of [main] passes over: it
    has no [Token:], or fewer than two fields. *)
Definition passedOver (line : bytes) : Prop :=
  strings.Contains line (str "Token:") = false
  ∨ ∃ parts, strings.Fields line = Some parts ∧ length parts < 2.

(** X11. The first line of the output that has [Token:] and at least two
    fields decides, and the token is its third field: with exactly two
    fields, as in [Token: <token>] without a leading mark, the index
    expression panics. *)
Theorem findToken_first_token_line
    (before : list bytes) (line : bytes) (after : list bytes) (parts : list bytes)
    (ghToken : bytes) (w : World) :
  Forall passedOver before →
  strings.Contains line (str "Token:") = true →
  strings.Fields line = Some parts →
  2 ≤ length parts →
  findToken (before ++ line :: after) ghToken w
  = (match parts !! 2 with
     | Some part => Value part
     | None => Panicked (IndexOutOfRange 2 2)
     end, w).
Proof.
  intros Hbefore Htoken Hfields Hlen.
  induction Hbefore as [|l before Hl _ IH]; cbn [app findToken].
  - rewrite Htoken, Hfields. unfold mbind, IO_bind. cbn [modelled mret IO_ret].
    apply Nat.leb_le in Hlen as Hlenb. rewrite Hlenb.
    destruct (parts !! 2) as [part|] eqn:Hpart; [done|].
    apply lookup_ge_None in Hpart. by replace (length parts) with 2 by lia.
  - destruct Hl as [Hl | (ps & Hps & Hshort)].
    + by rewrite Hl.
    + destruct (strings.Contains l (str "Token:")); [|done].
      rewrite Hps. unfold mbind, IO_bind. cbn [modelled mret IO_ret].
      apply Nat.leb_gt in Hshort. by rewrite Hshort.
Qed.

(** X12. When every line of the output is passed over, the token is the
    whole output as it was printed. *)
Theorem findToken_no_token_line (lines : list bytes) (ghToken : bytes) (w : World) :
  Forall passedOver lines →
  findToken lines ghToken w = (Value ghToken, w).
Proof.
  induction 1 as [|l lines Hl _ IH]; [done|]. cbn [findToken].
  destruct Hl as [Hl | (ps & Hps & Hshort)].
  - by rewrite Hl.
  - destruct (strings.Contains l (str "Token:")); [|done].
    rewrite Hps. unfold mbind, IO_bind. cbn [modelled mret IO_ret].
    apply Nat.leb_gt in Hshort. by rewrite Hshort.
Qed.

(** ** The flags *)

(** X13. An environment that is neither [dev] nor [prod], an empty owner
    or an empty repository ends [main] with exit status 1 before anything
    is run, looked up or written: the world is as it was. *)
Theorem main_prerequisites (outside : Outside) (fl : Flags) (w : World) :
  (flag_e fl ≠ str "dev" ∧ flag_e fl ≠ str "prod") ∨ flag_o fl = [] ∨ flag_r fl = [] →
  ∃ message,
    main outside fl w = (Exit 1 message, w)
    ∧ message ∈ [str "Environment (-e) must be 'dev' or 'prod'";
                 str "Organization (-o) is required";
                 str "Repository (-r) is required"].
Proof.
  intros Hbad. unfold main.
  destruct (bool_decide (flag_e fl = str "dev")) eqn:Hdev;
    destruct (bool_decide (flag_e fl = str "prod")) eqn:Hprod; cbn [negb andb];
    try (eexists; split; [reflexivity|]; by left).
  all: destruct (bool_decide (flag_o fl = [])) eqn:Howner;
    try (eexists; split; [reflexivity|]; right; by left).
  all: destruct (bool_decide (flag_r fl = [])) eqn:Hrepo;
    try (eexists; split; [reflexivity|]; do 2 right; by left).
  all: exfalso; apply bool_decide_eq_false in Howner, Hrepo.
  all: destruct Hbad as [[Hd Hp] | [? | ?]]; [|done..].
  all: first [by apply bool_decide_eq_true in Hdev | by apply bool_decide_eq_true in Hprod].
Qed.


(** ** A run of [main] that completes *)

Lemma modelled_Value {A} (r : option A) (w w' : World) (a : A) :
  modelled r w = (Value a, w') → r = Some a ∧ w' = w.
Proof. destruct r; [by intros [= -> ->] | discriminate]. Qed.

Lemma findToken_world (lines : list bytes) (ghToken : bytes) (w : World) :
  (findToken lines ghToken w).2 = w.
Proof.
  induction lines as [|line lines IH]; [done|]. cbn [findToken].
  destruct (strings.Contains line (str "Token:")); [|done].
  unfold mbind, IO_bind. destruct (strings.Fields line) as [parts|]; [|done].
  cbn [modelled mret IO_ret]. destruct (2 <=? length parts); [|done].
  by destruct (parts !! 2).
Qed.

Lemma resolveNewCommitHash_Value (outside : Outside) (gh : github.Client)
    (newCommitHashFlag master owner repo : bytes) (w w' : World) (newCommitHash : bytes) :
  resolveNewCommitHash outside gh newCommitHashFlag master owner repo w
  = (Value newCommitHash, w') →
  history w'
  = history w ++ (if bool_decide (newCommitHashFlag = [])
                  then [CallGetRef gh owner repo (str "refs/heads/" ++ master)]
                  else [])
  ∧ (newCommitHashFlag ≠ [] → newCommitHash = newCommitHashFlag).
Proof.
  unfold resolveNewCommitHash. case_bool_decide as Hflag.
  - intros ([h err] & w1 & Hnew & H)%bind_Value. split; [|done].
    destruct err; [by apply log_Fatalf_no_Value in H|]. injection H as _ <-.
    unfold extractNewCommitHash in Hnew.
    apply bind_Value in Hnew as ([ref err] & w2 & Hget & Hnew).
    injection Hget as _ <-.
    destruct err.
    + apply bind_Value in Hnew as (msg & w3 & [_ ->]%modelled_Value & Hnew).
      by injection Hnew as _ _ <-.
    + apply bind_Value in Hnew as (sha & w3 & Hslice & Hnew). injection Hnew as _ <-.
      unfold slice_to in Hslice. destruct (8 <=? _); [|discriminate Hslice].
      by injection Hslice as _ <-.
  - intros [= -> ->]. split; [by rewrite app_nil_r | done].
Qed.

Lemma gitCommit_Value_None (outside : Outside)
    (filePath env repo commitHash : bytes) (w w' : World) :
  gitCommit outside filePath env repo commitHash w = (Value None, w') →
  ∃ message,
    title repo env commitHash = Some message
    ∧ history w'
      = history w ++ [CallRun (str "git") [str "add"; filePath];
                      CallRun (str "git") [str "commit"; str "-m"; message]].
Proof.
  destruct (title repo env commitHash) as [message|] eqn:Htitle.
  - rewrite (gitCommit_run _ _ _ _ _ message) by done.
    destruct (failure outside w (str "git") [str "add"; filePath]); [discriminate|].
    intros [= _ <-]. exists message. split; [done|]. cbn [ran history].
    by rewrite <- app_assoc.
  - unfold title in Htitle. unfold gitCommit.
    intros ([out err] & w1 & _ & H)%bind_Value.
    destruct err; [apply bind_Value in H as (msg & w2 & _ & H); discriminate H|].
    destruct (strings.ToUpper env) as [ENV|]; [discriminate Htitle|].
    by apply bind_Value in H as (ENV & w2 & [? _]%modelled_Value & _).
Qed.

Lemma gitPush_history (outside : Outside) (branch : bytes) (w : World) :
  history (gitPush outside branch w).2
  = history w ++ [CallRun (str "git") [str "push"; str "origin"; branch]].
Proof.
  unfold gitPush. unfold mbind at 1, IO_bind at 1. rewrite runCommand_run.
  destruct (failure outside w (str "git") _); [|done].
  unfold mbind, IO_bind, Errorf. by destruct (fmt.Errorf _ _).
Qed.

Lemma createPullRequest_history (outside : Outside) (gh : github.Client)
    (owner branch master ttl body : bytes) (w : World) :
  history (createPullRequest outside gh owner branch master ttl body w).2
  = history w ++ [CallCreate gh owner (str "devops")
                    {| github.Title := Some ttl; github.Head := Some branch;
                       github.Base := Some master; github.Body := Some body |}].
Proof.
  unfold createPullRequest, Create, mbind, IO_bind.
  destruct (PullRequests_Create outside w gh owner (str "devops") _) as [created [e|]];
    [|done].
  unfold Errorf. by destruct (fmt.Errorf _ _).
Qed.

Lemma runCommand_world (outside : Outside) (name : bytes) (args : list bytes)
    (w w' : World) (o : outcome (bytes * option error)) :
  runCommand outside name args w = (o, w') → w' = ran outside w name args.
Proof. rewrite runCommand_run. by intros [= _ <-]. Qed.

Lemma findToken_same_world (lines : list bytes) (ghToken : bytes) (w w' : World)
    (o : outcome bytes) :
  findToken lines ghToken w = (o, w') → w' = w.
Proof. intros H. pose proof (findToken_world lines ghToken w) as E. by rewrite H in E. Qed.

Lemma extractOldCommitHash_same_world (filePath master yamlTag : bytes) (w w' : World)
    (o : outcome (bytes * option error)) :
  extractOldCommitHash filePath master yamlTag w = (o, w') → w' = w.
Proof.
  intros H. pose proof (extractOldCommitHash_reads_only w filePath master yamlTag) as E.
  by rewrite H in E.
Qed.

Lemma createOrCheckoutBranch_calls (outside : Outside) (branch : bytes) (w w' : World)
    (o : outcome (option error)) :
  createOrCheckoutBranch outside branch w = (o, w') →
  ∃ existing : bool,
    history w'
    = history w ++ [CallRun (str "git") [str "rev-parse"; str "--verify"; branch];
                    CallRun (str "git")
                      ([str "checkout"] ++ (if existing then [] else [str "-b"])
                       ++ [branch])].
Proof.
  rewrite createOrCheckoutBranch_run. intros [= _ <-]. cbn [ran history].
  rewrite <- app_assoc.
  match goal with
  | |- context [failure ?o ?v ?n ?a] => destruct (failure o v n a)
  end; [by exists false | by exists true].
Qed.

Lemma updateYamlFile_same_history
    (filePath master yamlTag oldCommitHash newCommitHash : bytes) (w w' : World)
    (o : outcome (option error)) :
  updateYamlFile filePath master yamlTag oldCommitHash newCommitHash w = (o, w') →
  history w' = history w.
Proof.
  destruct (files w !! filePath) as [input|] eqn:Hin.
  - destruct (decide (filePath ∈ readonly w)) as [Hro|Hrw].
    + erewrite updateYamlFile_write_error by done. by intros [= _ <-].
    + erewrite updateYamlFile_run by done. by intros [= _ <-].
  - rewrite updateYamlFile_read_error by done. by intros [= _ <-].
Qed.

Lemma gitPush_calls (outside : Outside) (branch : bytes) (w w' : World)
    (o : outcome (option error)) :
  gitPush outside branch w = (o, w') →
  history w' = history w ++ [CallRun (str "git") [str "push"; str "origin"; branch]].
Proof. intros H. pose proof (gitPush_history outside branch w) as E. by rewrite H in E. Qed.

Lemma createPullRequest_calls (outside : Outside) (gh : github.Client)
    (owner branch master ttl body : bytes) (w w' : World)
    (o : outcome (bytes * option error)) :
  createPullRequest outside gh owner branch master ttl body w = (o, w') →
  history w'
  = history w ++ [CallCreate gh owner (str "devops")
                    {| github.Title := Some ttl; github.Head := Some branch;
                       github.Base := Some master; github.Body := Some body |}].
Proof.
  intros H. pose proof (createPullRequest_history outside gh owner branch master ttl body w)
    as E. by rewrite H in E.
Qed.

(** The calls of a run that completes, in their order. *)
Definition completedCalls (fl : Flags) (gh : github.Client) (existing : bool)
    (branch ttl body text : bytes) : list Call :=
  [CallRun (str "gh") [str "auth"; str "status"; str "--show-token"]]
  ++ (if bool_decide (flag_c fl = [])
      then [CallGetRef gh (flag_o fl) (flag_r fl) (str "refs/heads/" ++ flag_m fl)]
      else [])
  ++ [CallRun (str "git") [str "rev-parse"; str "--verify"; branch];
      CallRun (str "git")
        ([str "checkout"] ++ (if existing then [] else [str "-b"]) ++ [branch]);
      CallRun (str "git") [str "add"; flag_f fl];
      CallRun (str "git") [str "commit"; str "-m"; ttl];
      CallRun (str "git") [str "push"; str "origin"; branch];
      CallCreate gh (flag_o fl) (str "devops")
        {| github.Title := Some ttl; github.Head := Some branch;
           github.Base := Some (flag_m fl); github.Body := Some body |};
      CallPrint text].

(** The calls of a run of [main] that returns. *)
Lemma main_returns_calls (outside : Outside) (fl : Flags) (w w' : World) :
  main outside fl w = (Value (), w') →
  ∃ gh newCommitHash oldCommitHash existing branch ttl body text,
    (flag_e fl = str "dev" ∨ flag_e fl = str "prod")
    ∧ flag_o fl ≠ [] ∧ flag_r fl ≠ []
    ∧ (flag_c fl ≠ [] → newCommitHash = flag_c fl)
    ∧ branchName (flag_r fl) (flag_e fl) newCommitHash = Some branch
    ∧ title (flag_r fl) (flag_e fl) newCommitHash = Some ttl
    ∧ description (flag_o fl) (flag_r fl) oldCommitHash newCommitHash = Some body
    ∧ history w' = history w ++ completedCalls fl gh existing branch ttl body text.
Proof.
  unfold main.
  destruct (bool_decide (flag_e fl = str "dev")) eqn:Hdev;
    destruct (bool_decide (flag_e fl = str "prod")) eqn:Hprod; cbn [negb andb];
    try discriminate.
  all: assert (flag_e fl = str "dev" ∨ flag_e fl = str "prod") as Henv
    by (first [left; by apply bool_decide_eq_true in Hdev
              | right; by apply bool_decide_eq_true in Hprod]).
  all: clear Hdev Hprod.
  all: case_bool_decide as Howner; [discriminate|].
  all: case_bool_decide as Hrepo; [discriminate|].
  all: intros ([out err] & w1 & Hgh%runCommand_world & H)%bind_Value.
  all: destruct err; [by apply log_Fatalf_no_Value in H|].
  all: apply bind_Value in H as (ghToken & w2 & ->%findToken_same_world & H).
  all: apply bind_Value in H as (newCommitHash & w3 & [Hh3 Hflag]%resolveNewCommitHash_Value & H).
  all: apply bind_Value in H
         as ([oldCommitHash err] & w4 & ->%extractOldCommitHash_same_world & H).
  all: destruct err; [by apply log_Fatalf_no_Value in H|].
  all: apply bind_Value in H as (branch & w5 & [Hbranch ->]%modelled_Value & H).
  all: apply bind_Value in H as (err & w6 & [existing Hh6]%createOrCheckoutBranch_calls & H).
  all: destruct err; [by apply log_Fatalf_no_Value in H|].
  all: apply bind_Value in H as (err & w7 & Hh7%updateYamlFile_same_history & H).
  all: destruct err; [by apply log_Fatalf_no_Value in H|].
  all: apply bind_Value in H as (err & w8 & Hcommit & H).
  all: destruct err; [by apply log_Fatalf_no_Value in H|].
  all: apply gitCommit_Value_None in Hcommit as (message & Hmessage & Hh8).
  all: apply bind_Value in H as (err & w9 & Hh9%gitPush_calls & H).
  all: destruct err; [by apply log_Fatalf_no_Value in H|].
  all: apply bind_Value in H as (ttl & w10 & [Httl ->]%modelled_Value & H).
  all: apply bind_Value in H as (body & w11 & [Hbody ->]%modelled_Value & H).
  all: apply bind_Value in H as ([url err] & w12 & Hh12%createPullRequest_calls & H).
  all: destruct err; [by apply log_Fatalf_no_Value in H|].
  all: apply bind_Value in H as (text & w13 & [_ ->]%modelled_Value & H).
  all: injection H as <-.
  all: exists {| github.AccessToken := ghToken |}, newCommitHash, oldCommitHash,
         existing, branch, ttl, body, text.
  all: assert (message = ttl) as -> by congruence.
  all: repeat (split; [done|]).
  all: cbn [history]; rewrite Hh12, Hh9, Hh8, Hh7, Hh6, Hh3, Hgh; cbn [ran history].
  all: unfold completedCalls; by rewrite <- !app_assoc.
Qed.

(** C9.  Whatever the flags, the files and the answers of the outside:
    every pull request that a run of [main] asks for is asked for in the
    repository [devops] of the owner given with [-o], and the repository
    given with [-r] only enters the head branch, the title and the body.
    And the request is made: a run that returns has asked for exactly one
    pull request, in [devops], as its last call before the report. *)
Theorem main_pull_request_to_devops (outside : Outside) (fl : Flags) (w : World) :
  ∃ new,
    history (main outside fl w).2 = history w ++ new
    ∧ (∀ gh owner repo pull,
          CallCreate gh owner repo pull ∈ new →
          owner = flag_o fl
          ∧ repo = str "devops"
          ∧ ∃ newCommitHash oldCommitHash,
              github.Head pull = branchName (flag_r fl) (flag_e fl) newCommitHash
              ∧ github.Title pull = title (flag_r fl) (flag_e fl) newCommitHash
              ∧ github.Body pull
                = description (flag_o fl) (flag_r fl) oldCommitHash newCommitHash
              ∧ github.Base pull = Some (flag_m fl))
    ∧ ((main outside fl w).1 = Value () →
       ∃ gh newCommitHash oldCommitHash branch ttl body before text,
         branchName (flag_r fl) (flag_e fl) newCommitHash = Some branch
         ∧ title (flag_r fl) (flag_e fl) newCommitHash = Some ttl
         ∧ description (flag_o fl) (flag_r fl) oldCommitHash newCommitHash = Some body
         ∧ new = before
                 ++ [CallCreate gh (flag_o fl) (str "devops")
                       {| github.Title := Some ttl; github.Head := Some branch;
                          github.Base := Some (flag_m fl); github.Body := Some body |};
                     CallPrint text]
         ∧ ∀ gh' owner repo pull, CallCreate gh' owner repo pull ∉ before).
Proof.
  destruct (main_creates_in_devops outside fl w) as (new & Hh & HP).
  exists new. split; [done|]. split.
  { intros gh owner repo pull Hin. rewrite Forall_forall in HP. exact (HP _ Hin). }
  destruct (main outside fl w) as [o w'] eqn:Hrun. cbn [fst snd] in *. intros ->.
  apply main_returns_calls in Hrun
    as (gh & new' & old & existing & branch & ttl & body & text
        & _ & _ & _ & _ & Hbranch & Httl & Hbody & Hh').
  rewrite Hh in Hh'. apply app_inv_head in Hh' as ->.
  exists gh, new', old, branch, ttl, body,
    ([CallRun (str "gh") [str "auth"; str "status"; str "--show-token"]]
     ++ (if bool_decide (flag_c fl = [])
         then [CallGetRef gh (flag_o fl) (flag_r fl) (str "refs/heads/" ++ flag_m fl)]
         else [])
     ++ [CallRun (str "git") [str "rev-parse"; str "--verify"; branch];
         CallRun (str "git")
           ([str "checkout"] ++ (if existing then [] else [str "-b"]) ++ [branch]);
         CallRun (str "git") [str "add"; flag_f fl];
         CallRun (str "git") [str "commit"; str "-m"; ttl];
         CallRun (str "git") [str "push"; str "origin"; branch]]), text.
  split; [done|]. split; [done|]. split; [done|]. split.
  - unfold completedCalls. by rewrite <- !app_assoc.
  - intros gh' owner repo pull Hin.
    destruct (bool_decide (flag_c fl = [])); cbn [app] in Hin;
      repeat (apply elem_of_cons in Hin as [Hin|Hin]; [discriminate Hin|]);
      by apply elem_of_nil in Hin.
Qed.

(** X14. A run of [main] that returns, rather than exits or panics, has
    asked the outside for exactly this, in this order: the token; the tip
    of the main branch, only when [-c] is empty; the verification and the
    checkout of the branch of the change; [git add] of the manifest; the
    commit, its message the title of the pull request; the push of the
    branch; one pull request, from that branch to the main branch, in
    [devops]; and the report.  The flags were valid, and a non-empty [-c]
    is the new identifier in all the names. *)
Theorem main_completed (outside : Outside) (fl : Flags) (w w' : World) :
  main outside fl w = (Value (), w') →
  ∃ gh newCommitHash oldCommitHash existing branch ttl body text,
    (flag_e fl = str "dev" ∨ flag_e fl = str "prod")
    ∧ flag_o fl ≠ [] ∧ flag_r fl ≠ []
    ∧ (flag_c fl ≠ [] → newCommitHash = flag_c fl)
    ∧ branchName (flag_r fl) (flag_e fl) newCommitHash = Some branch
    ∧ title (flag_r fl) (flag_e fl) newCommitHash = Some ttl
    ∧ description (flag_o fl) (flag_r fl) oldCommitHash newCommitHash = Some body
    ∧ history w' = history w ++ completedCalls fl gh existing branch ttl body text.
Proof. exact (main_returns_calls outside fl w w'). Qed.


(** ** Facts about concrete manifests, by computation *)

Lemma fits_computed (raws : list bytes) :
  forallb bufio.fits raws = true →
  Forall (λ raw, length raw < bufio.MaxScanTokenSize) raws.
Proof.
  induction raws as [|raw raws IH]; simpl; [by constructor|].
  intros [Hraw Hraws]%andb_true_iff. constructor; [by apply Nat.ltb_lt | by apply IH].
Qed.

Lemma none_decisive_computed (master yamlTag : bytes) (raws : list bytes) :
  forallb (λ raw,
             negb (strings.Contains (bufio.dropCR raw) yamlTag
                   && bool_decide (is_Some (regexp.FindStringSubmatch (hashRegexp master)
                                              (bufio.dropCR raw))))) raws = true →
  Forall (λ raw, ¬ (strings.Contains (bufio.dropCR raw) yamlTag = true
                    ∧ has_match master (bufio.dropCR raw))) raws.
Proof.
  induction raws as [|raw raws IH]; simpl; [by constructor|].
  intros [Hraw Hraws]%andb_true_iff. constructor; [|by apply IH].
  apply not_decisive_computed. by apply negb_true_iff.
Qed.

Lemma matches_at_drop (master line : bytes) (j : nat) (cap : bytes) :
  matches_at master line j cap → matches_at master (drop j line) 0 cap.
Proof.
  intros (pre & post & -> & <- & Hlen & Hw). rewrite drop_app_length. by exists [], post.
Qed.

Lemma no_earlier_computed (master line : bytes) (n : nat) :
  forallb (λ j, match regexp.matchHere (hashRegexp master) (drop j line) with
                | Some _ => false
                | None => true
                end) (seq 0 n) = true →
  ∀ j cap, matches_at master line j cap → n ≤ j.
Proof.
  intros Hnone j cap Hj. destruct (decide (n ≤ j)) as [|Hlt]; [done|].
  rewrite List.forallb_forall in Hnone. specialize (Hnone j).
  apply matches_at_drop, matches_at_0 in Hj as [rest Hj]. rewrite Hj in Hnone.
  discriminate Hnone. apply in_seq. lia.
Qed.

(** ** The further properties at concrete inputs *)

Lemma image_no_NL : NL ∉ str "image".
Proof. by apply absent_computed. Qed.

Lemma master_no_NL : NL ∉ str "master".
Proof. by apply absent_computed. Qed.

Lemma hash1_no_NL : NL ∉ str "11111111".
Proof. by apply absent_computed. Qed.

Lemma hash2_no_NL : NL ∉ str "22222222".
Proof. by apply absent_computed. Qed.

Lemma updateYamlFile_one_line_witness :
  files world3 !! str "values.yaml" = Some manifest3
  ∧ (str "values.yaml" ∉ readonly world3)
  ∧ (NL ∉ str "image") ∧ (NL ∉ str "master")
  ∧ (NL ∉ str "11111111") ∧ (NL ∉ str "22222222")
  ∧ ∃ w' output,
      updateYamlFile (str "values.yaml") (str "master") (str "image")
        (str "11111111") (str "22222222") world3 = (Value None, w')
      ∧ files w' !! str "values.yaml" = Some output
      ∧ (output = manifest3
         ∨ ∃ before p q after,
             bufio.rawLines manifest3
             = before ++ (p ++ pin (str "image") (str "master") (str "11111111") ++ q) :: after
             ∧ bufio.rawLines output
               = before ++ (p ++ pin (str "image") (str "master") (str "22222222") ++ q)
                 :: after).
Proof.
  split; [reflexivity|]. split; [apply not_elem_of_empty|].
  split; [exact image_no_NL|]. split; [exact master_no_NL|].
  split; [exact hash1_no_NL|]. split; [exact hash2_no_NL|].
  apply (updateYamlFile_one_line world3 (str "values.yaml") (str "master") (str "image")
           (str "11111111") (str "22222222") manifest3).
  - reflexivity.
  - apply not_elem_of_empty.
  - exact image_no_NL.
  - exact master_no_NL.
  - exact hash1_no_NL.
  - exact hash2_no_NL.
Defined.

(** A manifest with a comment, another pin on the same branch, the pin
    indented and followed by a comment and a carriage return, and a line
    below. *)
Definition above8 : bytes :=
  str "# image pin" ++ [NL] ++ pin (str "chart") (str "master") (str "99999999") ++ [NL].
Definition indent8 : bytes := str "  ".
Definition rest8 : bytes := str " # pinned" ++ [CR].
Definition below8 : bytes := NL :: str "replicas: 2" ++ [NL].

Definition manifest8 (hash : bytes) : bytes :=
  pinManifest (str "master") (str "image") above8 indent8 rest8 below8 hash.

Definition world8 : World :=
  {| files := {[ str "values.yaml" := manifest8 (str "11111111") ]};
     readonly := ∅; history := [] |}.

Lemma above8_whole : whole_lines above8.
Proof.
  right. by exists (str "# image pin" ++ [NL]
                   ++ pin (str "chart") (str "master") (str "99999999")).
Qed.

Lemma indent8_no_NL : NL ∉ indent8.
Proof. by apply absent_computed. Qed.

Lemma rest8_no_NL : NL ∉ rest8.
Proof. by apply absent_computed. Qed.

Lemma below8_ends : ends_line below8.
Proof. right. by eexists. Qed.

Lemma manifest8_fits :
  Forall (λ raw, length raw < bufio.MaxScanTokenSize)
         (bufio.rawLines above8
          ++ [pinLine (str "master") (str "image") indent8 rest8 (str "11111111")]).
Proof. by apply fits_computed. Qed.

Lemma above8_not_decisive :
  Forall (λ raw, ¬ (strings.Contains (bufio.dropCR raw) (str "image") = true
                    ∧ has_match (str "master") (bufio.dropCR raw))) (bufio.rawLines above8).
Proof. by apply none_decisive_computed. Qed.

Lemma manifest8_no_earlier (j : nat) (cap : bytes) :
  matches_at (str "master")
    (bufio.dropCR (pinLine (str "master") (str "image") indent8 rest8 (str "11111111"))) j cap →
  pinOffset (str "image") indent8 ≤ j.
Proof. by apply no_earlier_computed. Qed.

Lemma patch_then_extract_witness :
  files world8 !! str "values.yaml"
  = Some (pinManifest (str "master") (str "image") above8 indent8 rest8 below8 (str "11111111"))
  ∧ (str "values.yaml" ∉ readonly world8)
  ∧ plain (str "master") ∧ (NL ∉ str "master") ∧ (NL ∉ str "image")
  ∧ length (str "11111111") = 8 ∧ wordChars (str "11111111")
  ∧ length (str "22222222") = 8 ∧ wordChars (str "22222222")
  ∧ whole_lines above8 ∧ (NL ∉ indent8) ∧ (NL ∉ rest8) ∧ ends_line below8
  ∧ Forall (λ raw, length raw < bufio.MaxScanTokenSize)
           (bufio.rawLines above8
            ++ [pinLine (str "master") (str "image") indent8 rest8 (str "11111111")])
  ∧ Forall (λ raw, ¬ (strings.Contains (bufio.dropCR raw) (str "image") = true
                      ∧ has_match (str "master") (bufio.dropCR raw)))
           (bufio.rawLines above8)
  ∧ (∀ j cap,
        matches_at (str "master")
          (bufio.dropCR (pinLine (str "master") (str "image") indent8 rest8 (str "11111111")))
          j cap →
        pinOffset (str "image") indent8 ≤ j)
  ∧ extractOldCommitHash (str "values.yaml") (str "master") (str "image") world8
    = (Value (str "11111111", None), world8)
  ∧ ∃ w',
      updateYamlFile (str "values.yaml") (str "master") (str "image")
        (str "11111111") (str "22222222") world8 = (Value None, w')
      ∧ files w' !! str "values.yaml"
        = Some (pinManifest (str "master") (str "image") above8 indent8 rest8 below8
                  (str "22222222"))
      ∧ extractOldCommitHash (str "values.yaml") (str "master") (str "image") w'
        = (Value (str "22222222", None), w').
Proof.
  split; [reflexivity|]. split; [apply not_elem_of_empty|].
  split; [reflexivity|]. split; [exact master_no_NL|]. split; [exact image_no_NL|].
  split; [reflexivity|]. split; [reflexivity|]. split; [reflexivity|]. split; [reflexivity|].
  split; [exact above8_whole|]. split; [exact indent8_no_NL|]. split; [exact rest8_no_NL|].
  split; [exact below8_ends|]. split; [exact manifest8_fits|].
  split; [exact above8_not_decisive|]. split; [exact manifest8_no_earlier|].
  apply (patch_then_extract world8 (str "values.yaml") (str "master") (str "image")
           (str "11111111") (str "22222222") above8 indent8 rest8 below8).
  - reflexivity.
  - apply not_elem_of_empty.
  - reflexivity.
  - exact master_no_NL.
  - exact image_no_NL.
  - reflexivity.
  - reflexivity.
  - reflexivity.
  - reflexivity.
  - exact above8_whole.
  - exact indent8_no_NL.
  - exact rest8_no_NL.
  - exact below8_ends.
  - exact manifest8_fits.
  - exact above8_not_decisive.
  - exact manifest8_no_earlier.
Defined.


Lemma gitCommit_add_then_commit_witness :
  title (str "svc") (str "prod") (str "cc0cc0cc") = Some (str "svc PROD cc0cc0cc")
  ∧ gitCommit cooperative (str "values.yaml") (str "prod") (str "svc") (str "cc0cc0cc") world1
    = match failure cooperative world1 (str "git") [str "add"; str "values.yaml"] with
      | Some e =>
          (Value (Some (str "run git add: run: " ++ e)),
           ran cooperative world1 (str "git") [str "add"; str "values.yaml"])
      | None =>
          (Value match failure cooperative
                         (ran cooperative world1 (str "git") [str "add"; str "values.yaml"])
                         (str "git") [str "commit"; str "-m"; str "svc PROD cc0cc0cc"] with
                 | None => None
                 | Some e =>
                     Some (str "run git commit -m " ++ [DQ] ++ str "svc PROD cc0cc0cc" ++ [DQ]
                           ++ str ": run: " ++ e)
                 end,
           ran cooperative (ran cooperative world1 (str "git") [str "add"; str "values.yaml"])
             (str "git") [str "commit"; str "-m"; str "svc PROD cc0cc0cc"])
      end.
Proof.
  split; [reflexivity|].
  apply (gitCommit_add_then_commit cooperative (str "values.yaml") (str "prod") (str "svc")
           (str "cc0cc0cc") (str "svc PROD cc0cc0cc") world1).
  reflexivity.
Defined.

Lemma github_passedOver : Forall passedOver [str "github.com"].
Proof. constructor; [by left | constructor]. Qed.

Lemma findToken_first_token_line_witness :
  Forall passedOver [str "github.com"]
  ∧ strings.Contains (str "  - Token: gho_token") (str "Token:") = true
  ∧ strings.Fields (str "  - Token: gho_token")
    = Some [str "-"; str "Token:"; str "gho_token"]
  ∧ 2 ≤ length [str "-"; str "Token:"; str "gho_token"]
  ∧ findToken ([str "github.com"] ++ str "  - Token: gho_token" :: [[]]) (str "all") world1
    = (match [str "-"; str "Token:"; str "gho_token"] !! 2 with
       | Some part => Value part
       | None => Panicked (IndexOutOfRange 2 2)
       end, world1).
Proof.
  split; [exact github_passedOver|]. split; [reflexivity|]. split; [reflexivity|].
  split; [by apply Nat.leb_le|].
  apply (findToken_first_token_line [str "github.com"] (str "  - Token: gho_token") [[]]
           [str "-"; str "Token:"; str "gho_token"] (str "all") world1).
  - exact github_passedOver.
  - reflexivity.
  - reflexivity.
  - by apply Nat.leb_le.
Defined.

(** A line [Token: <token>] has two fields, and the third is asked
    for. *)
Example findToken_two_fields :
  findToken [str "Token: gho_token"] (str "Token: gho_token") world1
  = (Panicked (IndexOutOfRange 2 2), world1).
Proof. reflexivity. Qed.

Lemma notLoggedIn_passedOver :
  Forall passedOver [str "You are not logged into any GitHub hosts."; []].
Proof. constructor; [by left|]. constructor; [by left | constructor]. Qed.

Lemma findToken_no_token_line_witness :
  Forall passedOver [str "You are not logged into any GitHub hosts."; []]
  ∧ findToken [str "You are not logged into any GitHub hosts."; []]
      (str "You are not logged into any GitHub hosts." ++ [NL]) world1
    = (Value (str "You are not logged into any GitHub hosts." ++ [NL]), world1).
Proof.
  split; [exact notLoggedIn_passedOver|].
  apply (findToken_no_token_line [str "You are not logged into any GitHub hosts."; []]
           (str "You are not logged into any GitHub hosts." ++ [NL]) world1).
  exact notLoggedIn_passedOver.
Defined.

Definition flagsStaging : Flags :=
  {| flag_c := str "22222222"; flag_o := str "acme"; flag_r := str "repo";
     flag_e := str "staging"; flag_f := str "values.yaml"; flag_t := str "image";
     flag_m := str "master" |}.

Lemma staging_invalid :
  (flag_e flagsStaging ≠ str "dev" ∧ flag_e flagsStaging ≠ str "prod")
  ∨ flag_o flagsStaging = [] ∨ flag_r flagsStaging = [].
Proof. left. by split. Qed.

Lemma main_prerequisites_witness :
  ((flag_e flagsStaging ≠ str "dev" ∧ flag_e flagsStaging ≠ str "prod")
   ∨ flag_o flagsStaging = [] ∨ flag_r flagsStaging = [])
  ∧ ∃ message,
      main cooperative flagsStaging world1 = (Exit 1 message, world1)
      ∧ message ∈ [str "Environment (-e) must be 'dev' or 'prod'";
                   str "Organization (-o) is required";
                   str "Repository (-r) is required"].
Proof.
  split; [exact staging_invalid|].
  apply (main_prerequisites cooperative flagsStaging world1).
  exact staging_invalid.
Defined.

(** The world after the run of [main_end_to_end]. *)
Definition worldDone : World := (main cooperative flags1 world1).2.

Lemma main_completes : main cooperative flags1 world1 = (Value (), worldDone).
Proof. by vm_compute. Qed.

Lemma main_pull_request_to_devops_witness :
  (main cooperative flags1 world1).1 = Value ()
  ∧ ∃ new,
      history (main cooperative flags1 world1).2 = history world1 ++ new
      ∧ ∃ gh newCommitHash oldCommitHash branch ttl body before text,
          branchName (flag_r flags1) (flag_e flags1) newCommitHash = Some branch
          ∧ title (flag_r flags1) (flag_e flags1) newCommitHash = Some ttl
          ∧ description (flag_o flags1) (flag_r flags1) oldCommitHash newCommitHash
            = Some body
          ∧ new = before
                  ++ [CallCreate gh (flag_o flags1) (str "devops")
                        {| github.Title := Some ttl; github.Head := Some branch;
                           github.Base := Some (flag_m flags1); github.Body := Some body |};
                      CallPrint text]
          ∧ ∀ gh' owner repo pull, CallCreate gh' owner repo pull ∉ before.
Proof.
  split; [by vm_compute|].
  destruct (main_pull_request_to_devops cooperative flags1 world1) as (new & Hh & _ & Hlive).
  exists new. split; [exact Hh|]. apply Hlive. by vm_compute.
Defined.

Lemma main_completed_witness :
  main cooperative flags1 world1 = (Value (), worldDone)
  ∧ ∃ gh newCommitHash oldCommitHash existing branch ttl body text,
      (flag_e flags1 = str "dev" ∨ flag_e flags1 = str "prod")
      ∧ flag_o flags1 ≠ [] ∧ flag_r flags1 ≠ []
      ∧ (flag_c flags1 ≠ [] → newCommitHash = flag_c flags1)
      ∧ branchName (flag_r flags1) (flag_e flags1) newCommitHash = Some branch
      ∧ title (flag_r flags1) (flag_e flags1) newCommitHash = Some ttl
      ∧ description (flag_o flags1) (flag_r flags1) oldCommitHash newCommitHash = Some body
      ∧ history worldDone
        = history world1 ++ completedCalls flags1 gh existing branch ttl body text.
Proof.
  split; [exact main_completes|].
  apply (main_completed cooperative flags1 world1 worldDone).
  exact main_completes.
Defined.


(** ** Any run of [main] *)

Lemma bind_cases {A B} (m : IO A) (k : A → IO B) (w w' : World) (o : outcome B) :
  (m ≫= k) w = (o, w') →
  (∃ a w1, m w = (Value a, w1) ∧ k a w1 = (o, w'))
  ∨ (∃ o1, m w = (o1, w') ∧ ∀ a, o1 ≠ Value a).
Proof.
  unfold mbind, IO_bind. destruct (m w) as [[a| | |] w1].
  - intros H. left. by exists a, w1.
  - intros [= <- <-]. right. by eexists.
  - intros [= <- <-]. right. by eexists.
  - intros [= <- <-]. right. by eexists.
Qed.

Lemma modelled_world {A} (r : option A) (w w' : World) (o : outcome A) :
  modelled r w = (o, w') → w' = w.
Proof. destruct r; by intros [= _ <-]. Qed.

Lemma log_Fatalf_world {A} (f : bytes) (operands : list bytes) (w w' : World)
    (o : outcome A) :
  log_Fatalf f operands w = (o, w') → w' = w.
Proof.
  unfold log_Fatalf, mbind, IO_bind, modelled, log_Fatal, abort.
  destruct (fmt.Sprintf f operands); by intros [= _ <-].
Qed.

Lemma extractNewCommitHash_calls (outside : Outside) (gh : github.Client)
    (master owner repository : bytes) (w w' : World) (o : outcome (bytes * option error)) :
  extractNewCommitHash outside gh master owner repository w = (o, w') →
  history w' = history w ++ [CallGetRef gh owner repository (str "refs/heads/" ++ master)].
Proof.
  unfold extractNewCommitHash, GetRef, mbind, IO_bind.
  destruct (Git_GetRef outside w gh owner repository _) as [ref [e|]].
  - unfold Errorf. destruct (fmt.Errorf _ _); by intros [= _ <-].
  - unfold slice_to. destruct (8 <=? _); by intros [= _ <-].
Qed.

Lemma resolveNewCommitHash_calls (outside : Outside) (gh : github.Client)
    (newCommitHashFlag master owner repo : bytes) (w w' : World) (o : outcome bytes) :
  resolveNewCommitHash outside gh newCommitHashFlag master owner repo w = (o, w') →
  history w'
  = history w ++ (if bool_decide (newCommitHashFlag = [])
                  then [CallGetRef gh owner repo (str "refs/heads/" ++ master)]
                  else []).
Proof.
  unfold resolveNewCommitHash. destruct (bool_decide (newCommitHashFlag = [])).
  - intros [([h err] & w1 & Hnew%extractNewCommitHash_calls & H)
           | (o1 & Hnew%extractNewCommitHash_calls & _)]%bind_cases; [|done].
    destruct err; [apply log_Fatalf_world in H | injection H as _ <-]; by subst.
  - intros [= _ <-]. by rewrite app_nil_r.
Qed.

Lemma title_valid (repo env commitHash : bytes) :
  env = str "dev" ∨ env = str "prod" → is_Some (title repo env commitHash).
Proof. intros [-> | ->]; by eexists. Qed.

Lemma gitCommit_calls (outside : Outside)
    (filePath env repo commitHash message : bytes) (w w' : World)
    (o : outcome (option error)) :
  title repo env commitHash = Some message →
  gitCommit outside filePath env repo commitHash w = (o, w') →
  history w' = history w ++ [CallRun (str "git") [str "add"; filePath]]
  ∨ history w' = history w ++ [CallRun (str "git") [str "add"; filePath];
                               CallRun (str "git") [str "commit"; str "-m"; message]].
Proof.
  intros Htitle. rewrite (gitCommit_run _ _ _ _ _ message) by done.
  destruct (failure outside w (str "git") [str "add"; filePath]); intros [= _ <-].
  - by left.
  - right. cbn [ran history]. by rewrite <- app_assoc.
Qed.

(** The calls made so far are the first calls of a run that completes. *)
Definition onTheWay (fl : Flags) (new : list Call) : Prop :=
  ∃ gh existing branch ttl body text,
    new `prefix_of` completedCalls fl gh existing branch ttl body text.

Ltac on_the_way :=
  subst; do 6 eexists; unfold completedCalls;
  repeat match goal with
         | E : bool_decide _ = _ |- _ => rewrite E
         end;
  cbn [app]; repeat apply prefix_cons; apply prefix_nil.

Ltac history_so_far :=
  subst; cbn [history ran];
  repeat match goal with
         | H : history _ = _ |- _ => rewrite H; clear H
         end;
  cbn [history ran]; rewrite <- ?app_assoc; reflexivity.

(** X15. Whatever its outcome (return, exit or panic), a run of [main]
    has made the first calls of a run that completes, in their order, and
    no other: no step is taken unless the steps before it were, so that
    nothing is pushed that was not committed and no pull request is opened
    for a branch that was not pushed. *)
Theorem main_fail_fast (outside : Outside) (fl : Flags) (w : World) :
  ∃ new,
    history (main outside fl w).2 = history w ++ new
    ∧ onTheWay fl new.
Proof.
  destruct (main outside fl w) as [o w'] eqn:H. cbn [snd]. unfold main in H.
  destruct (bool_decide (flag_e fl = str "dev")) eqn:Hdev;
    destruct (bool_decide (flag_e fl = str "prod")) eqn:Hprod; cbn [negb andb] in H.
  4: { injection H as _ <-. exists []. split; [by rewrite app_nil_r | on_the_way]. }
  all: assert (flag_e fl = str "dev" ∨ flag_e fl = str "prod") as Henv
    by (first [left; by apply bool_decide_eq_true in Hdev
              | right; by apply bool_decide_eq_true in Hprod]).
  all: clear Hdev Hprod.
  all: destruct (bool_decide (flag_o fl = []));
         [injection H as _ <-; exists []; split; [by rewrite app_nil_r | on_the_way]|].
  all: destruct (bool_decide (flag_r fl = []));
         [injection H as _ <-; exists []; split; [by rewrite app_nil_r | on_the_way]|].
  all: apply bind_cases in H as [([out err] & w1 & Hgh%runCommand_world & H)
                                | (o1 & Hgh%runCommand_world & _)].
  all: try (eexists; split; [history_so_far | on_the_way]).
  all: destruct err; [apply log_Fatalf_world in H;
                      eexists; split; [history_so_far | on_the_way]|].
  all: apply bind_cases in H as [(ghToken & w2 & Htok%findToken_same_world & H)
                                | (o1 & Htok%findToken_same_world & _)].
  all: try (eexists; split; [history_so_far | on_the_way]).
  all: destruct (bool_decide (flag_c fl = [])) eqn:Hc.
  all: apply bind_cases in H as [(newCommitHash & w3 & Hh3%resolveNewCommitHash_calls & H)
                                | (o1 & Hh3%resolveNewCommitHash_calls & _)].
  all: rewrite Hc in Hh3.
  all: try (eexists; split; [history_so_far | on_the_way]).
  all: apply bind_cases in H
         as [([oldCommitHash err] & w4 & Hw4%extractOldCommitHash_same_world & H)
            | (o1 & Hw4%extractOldCommitHash_same_world & _)].
  all: try (eexists; split; [history_so_far | on_the_way]).
  all: destruct err; [apply log_Fatalf_world in H;
                      eexists; split; [history_so_far | on_the_way]|].
  all: apply bind_cases in H as [(branch & w5 & Hw5%modelled_world & H)
                                | (o1 & Hw5%modelled_world & _)].
  all: try (eexists; split; [history_so_far | on_the_way]).
  all: apply bind_cases in H as [(err & w6 & [existing Hh6]%createOrCheckoutBranch_calls & H)
                                | (o1 & [existing Hh6]%createOrCheckoutBranch_calls & _)].
  all: try (eexists; split; [history_so_far | on_the_way]).
  all: destruct err; [apply log_Fatalf_world in H;
                      eexists; split; [history_so_far | on_the_way]|].
  all: apply bind_cases in H as [(err & w7 & Hh7%updateYamlFile_same_history & H)
                                | (o1 & Hh7%updateYamlFile_same_history & _)].
  all: try (eexists; split; [history_so_far | on_the_way]).
  all: destruct err; [apply log_Fatalf_world in H;
                      eexists; split; [history_so_far | on_the_way]|].
  all: destruct (title_valid (flag_r fl) (flag_e fl) newCommitHash Henv) as [message Hmessage].
  all: apply bind_cases in H as [(err & w8 & Hcommit & H) | (o1 & Hcommit & _)].
  all: try (pose proof (gitCommit_calls _ _ _ _ _ _ _ _ _ Hmessage Hcommit) as [Hh8 | Hh8];
            eexists; (split; [history_so_far | on_the_way])).
  all: destruct err;
         [apply log_Fatalf_world in H;
          pose proof (gitCommit_calls _ _ _ _ _ _ _ _ _ Hmessage Hcommit) as [Hh8 | Hh8];
          eexists; (split; [history_so_far | on_the_way])|].
  all: apply gitCommit_Value_None in Hcommit as (message' & Hmessage' & Hh8).
  all: assert (message' = message) as -> by congruence.
  all: apply bind_cases in H as [(err & w9 & Hh9%gitPush_calls & H)
                                | (o1 & Hh9%gitPush_calls & _)].
  all: try (eexists; split; [history_so_far | on_the_way]).
  all: destruct err; [apply log_Fatalf_world in H;
                      eexists; split; [history_so_far | on_the_way]|].
  all: apply bind_cases in H as [(ttl & w10 & Httl & H) | (o1 & Httl & _)].
  all: try (apply modelled_world in Httl;
            eexists; split; [history_so_far | on_the_way]).
  all: apply modelled_Value in Httl as [Httl ->].
  all: assert (ttl = message) as -> by congruence.
  all: apply bind_cases in H as [(body & w11 & Hw11%modelled_world & H)
                                | (o1 & Hw11%modelled_world & _)].
  all: try (eexists; split; [history_so_far | on_the_way]).
  all: apply bind_cases in H as [([url err] & w12 & Hh12%createPullRequest_calls & H)
                                | (o1 & Hh12%createPullRequest_calls & _)].
  all: try (eexists; split; [history_so_far | on_the_way]).
  all: destruct err; [apply log_Fatalf_world in H;
                      eexists; split; [history_so_far | on_the_way]|].
  all: apply bind_cases in H as [(text & w13 & Hw13%modelled_world & H)
                                | (o1 & Hw13%modelled_world & _)].
  all: try (eexists; split; [history_so_far | on_the_way]).
  all: injection H as _ <-.
  all: eexists; split; [history_so_far | on_the_way].
  Unshelve.
  all: first [exact [] | exact true | exact {| github.AccessToken := [] |}].
Qed.

